(** * xann in-memory store: identifier manager, vector batches, store facade
      and operator registry

    Shallow embedding of
      - xann/store/id_manager.{h,cc}   (class IdManager, struct LabelEntity)
      - xann/store/vector_batch.{h,cc} (class VectorBatch)
      - xann/store/store.{h,cc}        (class MemStore)
      - xann/core/operator_registry.{h,cc} (class MetricRegistry)
      - xann/core/vector_space.{h,cc}  (VectorSpace::create)

    Conventions.
      - uint64_t / size_t values are [N]; where the C++ arithmetic can wrap,
        the wrap-around is written with [wrap64].
      - turbo::Status / turbo::Result<T> is [Result]; a call that does not
        return normally is [Abort] (a failed KCHECK) or [Undef] (an
        out-of-bounds subscript of a std::vector, a null dereference, a
        division by zero, a signed overflow, a write through a dangling
        pointer or a second deallocation of a block), both carried by
        [Run].
      - turbo::flat_hash_map<uint64_t,uint64_t> is [gmap N N],
        turbo::btree_set<uint64_t> is [gset N] with [set_begin] for begin(),
        std::vector<T> is [list T] read with [!!] and written with [alter]
        or [<[_:=_]>] behind an explicit bounds test. *)

From Stdlib Require Import NArith ZArith Lia.
From stdpp Require Import base option list gmap sets relations strings.

Local Open Scope N_scope.

(** ** Status codes, results and abnormal termination *)

Inductive StatusCode : Set :=
  | kInvalidArgument
  | kAlreadyExists
  | kNotFound
  | kOutOfRange
  | kResourceExhausted
  | kUnavailable
  | kFailedPrecondition.

Inductive Result (A : Type) : Type :=
  | Ok (a : A)
  | Err (c : StatusCode).
Arguments Ok {A} a.
Arguments Err {A} c.

Inductive Run (A : Type) : Type :=
  | Done (a : A)
  | Abort
  | Undef.
Arguments Done {A} a.
Arguments Abort {A}.
Arguments Undef {A}.

#[global] Instance Run_ret : MRet Run := @Done.
#[global] Instance Run_bind : MBind Run := λ A B f r,
  match r with
  | Done a => f a
  | Abort => Abort
  | Undef => Undef
  end.

(** ** 64-bit arithmetic *)

Definition wrap64 (x : N) : N := x mod 2 ^ 64.

(** The result of an [int] or [int32_t] operation: signed overflow is
    undefined behaviour. *)
Definition int32 (z : Z) : Run Z :=
  if decide (- 2 ^ 31 ≤ z < 2 ^ 31)%Z then Done z else Undef.

(** ** turbo::btree_set<uint64_t>::begin() *)

Definition set_begin (s : gset N) : option N :=
  match elements s with
  | [] => None
  | x :: l => Some (foldr N.min x l)
  end.

(** ** LabelEntity and IdManager (id_manager.h) *)

Definition kInvalidId : N := 18446744073709551615.
Definition kDefaultGrowth : N := 256.
Definition kNoneStatus : N := 0.

Record LabelEntity : Set := mkLabelEntity {
  label : N;
  status : N
}.

(** [static const LabelEntity le;]: the default member initializers. *)
Definition le : LabelEntity := {| label := kInvalidId; status := kNoneStatus |}.

Record IdManager : Type := mkIdManager {
  _free_ids : gset N;
  _ids : list LabelEntity;
  _next_id : N;
  _reserved_id : N;
  _id_map : gmap N N;
  _initialized : bool
}.

(** [IdManager() = default]. *)
Definition IdManager_default : IdManager :=
  {| _free_ids := ∅; _ids := []; _next_id := 0; _reserved_id := 0;
     _id_map := ∅; _initialized := false |}.

(** [_ids.size()]. *)
Definition ids_size (m : IdManager) : N := N.of_nat (length (_ids m)).

Definition with_ids (v : list LabelEntity) (m : IdManager) : IdManager :=
  {| _free_ids := _free_ids m; _ids := v; _next_id := _next_id m;
     _reserved_id := _reserved_id m; _id_map := _id_map m;
     _initialized := _initialized m |}.

Definition with_id_map (mp : gmap N N) (m : IdManager) : IdManager :=
  {| _free_ids := _free_ids m; _ids := _ids m; _next_id := _next_id m;
     _reserved_id := _reserved_id m; _id_map := mp;
     _initialized := _initialized m |}.

Definition with_free (fr : gset N) (nx : N) (m : IdManager) : IdManager :=
  {| _free_ids := fr; _ids := _ids m; _next_id := nx;
     _reserved_id := _reserved_id m; _id_map := _id_map m;
     _initialized := _initialized m |}.

(** *** id_manager.cc *)

(** [resize] and [grow] describe the calls of [std::vector::resize] that
    return; a call that throws (std::length_error beyond max_size(),
    std::bad_alloc) does not return and is not modelled. *)
Definition resize (n : N) (m : IdManager) : IdManager :=
  if decide (ids_size m < n)
  then with_ids (_ids m ++ replicate (N.to_nat n - length (_ids m))%nat le) m
  else m.

Definition grow (n : N) (m : IdManager) : IdManager :=
  with_ids (_ids m ++ replicate (N.to_nat n) le) m.

(** The loop [for (i = _reserved_id; i < _next_id; i++)] of initialize, run
    for [k] iterations from index [i]. *)
Fixpoint scan (k : nat) (i : N) (ids : list LabelEntity)
    (free : gset N) (mp : gmap N N) : Run (gset N * gmap N N) :=
  match k with
  | O => Done (free, mp)
  | S k' =>
      match ids !! N.to_nat i with
      | None => Undef
      | Some e =>
          if decide (label e = kInvalidId)
          then scan k' (i + 1) ids ({[i]} ∪ free) mp
          else scan k' (i + 1) ids free (<[label e := i]> mp)
      end
  end.

(** The header declares [turbo::Status initialize(...)] and MemStore::init
    returns its value; the definition has no failing return, so both of its
    exits carry the OK status. *)
Definition initialize (map : list LabelEntity) (reserved_id next_id : N)
    (m : IdManager) : Run (Result unit * IdManager) :=
  if _initialized m then Done (Ok (), m)
  else
    let m1 := {| _free_ids := _free_ids m; _ids := map; _next_id := next_id;
                 _reserved_id := reserved_id; _id_map := _id_map m;
                 _initialized := false |} in
    let m2 := if decide (ids_size m1 < _next_id m1)
              then resize (wrap64 (_next_id m1 + kDefaultGrowth)) m1
              else m1 in
    '(fr, mp) ← scan (N.to_nat (_next_id m2 - _reserved_id m2))
                     (_reserved_id m2) (_ids m2) (_free_ids m2) (_id_map m2);
    Done (Ok (),
          {| _free_ids := fr; _ids := _ids m2; _next_id := _next_id m2;
             _reserved_id := _reserved_id m2; _id_map := mp;
             _initialized := true |}).

(** [_ids[lid].label = label]. *)
Definition set_slot_label (lid lbl : N) (v : list LabelEntity) : list LabelEntity :=
  alter (λ e, {| label := lbl; status := status e |}) (N.to_nat lid) v.

(** [_ids[lid].status = st]. *)
Definition set_slot_status (lid st : N) (v : list LabelEntity) : list LabelEntity :=
  alter (λ e, {| label := label e; status := st |}) (N.to_nat lid) v.

(** The writes of alloc_id once [lid] is chosen:
    [_id_map[label] = lid; _ids[lid].label = label;] with the free set and
    next_id as left by the choice. *)
Definition allocated (lbl lid : N) (fr : gset N) (nx : N) (m : IdManager)
    : IdManager :=
  {| _free_ids := fr; _ids := set_slot_label lid lbl (_ids m); _next_id := nx;
     _reserved_id := _reserved_id m; _id_map := <[lbl := lid]> (_id_map m);
     _initialized := _initialized m |}.

Definition alloc_id (lbl : N) (m : IdManager) : Run (Result N * IdManager) :=
  if negb (_initialized m) then Abort
  else if decide (is_Some (_id_map m !! lbl)) then Done (Err kAlreadyExists, m)
  else
    let pick : Result (N * gset N * N) :=
      match set_begin (_free_ids m) with
      | Some lid => Ok (lid, _free_ids m ∖ {[lid]}, _next_id m)
      | None =>
          if decide (ids_size m ≤ _next_id m) then Err kResourceExhausted
          else Ok (_next_id m, _free_ids m, _next_id m + 1)
      end in
    match pick with
    | Err c => Done (Err c, m)
    | Ok (lid, fr, nx) =>
        if decide (lid < ids_size m)
        then Done (Ok lid, allocated lbl lid fr nx m)
        else Undef
    end.

(** The [while] loop of shrink_next_id; every iteration lowers [next], which
    stays above [reserved], so [next - reserved] iterations are enough. *)
Fixpoint shrink_loop (fuel : nat) (reserved : N) (free : gset N) (next : N)
    : gset N * N :=
  match fuel with
  | O => (free, next)
  | S fuel' =>
      if decide (reserved < next) then
        if decide (next - 1 ∈ free)
        then shrink_loop fuel' reserved (free ∖ {[next - 1]}) (next - 1)
        else (free, next)
      else (free, next)
  end.

Definition shrink_next_id (m : IdManager) : IdManager :=
  let '(fr, nx) := shrink_loop (N.to_nat (_next_id m - _reserved_id m))
                               (_reserved_id m) (_free_ids m) (_next_id m) in
  with_free fr nx m.

(** The common tail of free_id and free_local_id:
    [_ids[lid].label = kInvalidId; _ids[lid].status = kNoneStatus;
     _free_ids.insert(lid); shrink_next_id();] *)
Definition release (lid : N) (m : IdManager) : IdManager :=
  shrink_next_id
    (with_free ({[lid]} ∪ _free_ids m) (_next_id m)
       (with_ids (set_slot_status lid kNoneStatus
                    (set_slot_label lid kInvalidId (_ids m))) m)).

Definition free_id (lbl : N) (m : IdManager) : Run IdManager :=
  if negb (_initialized m) then Abort
  else
    match _id_map m !! lbl with
    | None => Done m
    | Some lid =>
        let m1 := with_id_map (delete lbl (_id_map m)) m in
        if decide (ids_size m1 ≤ lid) then Done m1
        else Done (release lid m1)
    end.

Definition free_local_id (lid : N) (m : IdManager) : Run IdManager :=
  if negb (_initialized m) then Abort
  else if decide (ids_size m ≤ lid) then Done m
  else
    match _ids m !! N.to_nat lid with
    | None => Undef
    | Some e => Done (release lid (with_id_map (delete (label e) (_id_map m)) m))
    end.

Definition set_reserved_id (lid lbl : N) (m : IdManager) : Run IdManager :=
  if decide (lid < _reserved_id m)
  then Done (with_id_map (<[lid := lbl]> (_id_map m)) m)
  else Abort.

Definition set_local_id_status (lid st : N) (m : IdManager) : Run IdManager :=
  if negb (_initialized m) then Abort
  else if decide (ids_size m ≤ lid) then Done m
  else Done (with_ids (set_slot_status lid st (_ids m)) m).

Definition set_label_status (lbl st : N) (m : IdManager) : Run IdManager :=
  match _id_map m !! lbl with
  | None => Done m
  | Some lid => set_local_id_status lid st m
  end.

(** Modelled from the spec: IdManager::local_id is declared in id_manager.h
    and called by MemStore, but its definition is not among the sources.
    Spec 4.1: "local_id(label) -> lid: pure lookup; fails with NotFound iff
    absent." *)
Definition local_id (lbl : N) (m : IdManager) : Result N :=
  match _id_map m !! lbl with
  | Some lid => Ok lid
  | None => Err kNotFound
  end.

(** ** Further members of IdManager (id_manager.cc) *)

(** [IdManager::local_id_status]: an lid outside the pool is reported with
    resource_exhausted_error. *)
Definition local_id_status (lid : N) (m : IdManager) : Run (Result N) :=
  if negb (_initialized m) then Abort
  else if decide (ids_size m ≤ lid) then Done (Err kResourceExhausted)
  else
    match _ids m !! N.to_nat lid with
    | Some e => Done (Ok (status e))
    | None => Undef
    end.

(** [IdManager::label_status]: so is a label missing from the map. *)
Definition label_status (lbl : N) (m : IdManager) : Run (Result N) :=
  match _id_map m !! lbl with
  | None => Done (Err kResourceExhausted)
  | Some lid => local_id_status lid m
  end.


(** ** VectorBatch (vector_batch.h, vector_batch.cc) *)

(** [memcpy(dst + off, src, |src|)] on a buffer; writing past the end of the
    buffer is undefined behaviour. *)
Definition memcpy (dst : list Byte.byte) (off : N) (src : list Byte.byte)
    : Run (list Byte.byte) :=
  if decide (N.to_nat off + length src ≤ length dst)%nat
  then Done (take (N.to_nat off) dst ++ src
               ++ drop (N.to_nat off + length src) dst)
  else Undef.

Module VectorBatch.

(** The block [_data] points to: its bytes while it is allocated, [Freed]
    once it has been deallocated.  Every copy of the pointer sees the same
    block, so after the deallocation each of them dangles. *)
Inductive block : Type :=
  | Live (bytes : list Byte.byte)
  | Freed.

Record t : Type := mk {
  _vector_byte_size : N;
  _capacity : N;
  _data : option block
}.

(** [VectorBatch() = default]: the default member initializers. *)
Definition default : t :=
  {| _vector_byte_size := 0; _capacity := 0; _data := None |}.

Definition with_data (buf : list Byte.byte) (b : t) : t :=
  {| _vector_byte_size := _vector_byte_size b; _capacity := _capacity b;
     _data := Some (Live buf) |}.

(** [~VectorBatch()]: [if (_data) { allocator.deallocate(_data, ...); }].
    The move constructor is defaulted, so it copies [_data] and leaves the
    source as it is: a moved-from object and its target point to one block.
    The result is the target after the source has been destroyed; a second
    deallocation of the block is undefined behaviour. *)
Definition destructor (b : t) : Run t :=
  match _data b with
  | None => Done b
  | Some (Live _) =>
      Done {| _vector_byte_size := _vector_byte_size b;
              _capacity := _capacity b; _data := Some Freed |}
  | Some Freed => Undef
  end.

(** turbo::span<uint8_t>: a pointer, given as a byte offset from [_data]
    ([None] is the null pointer), and a length. *)
Record span : Set := mkSpan {
  sp_ptr : option N;
  sp_size : N
}.

(** [turbo::span<uint8_t>{}]. *)
Definition span_null : span := {| sp_ptr := None; sp_size := 0 |}.

(** [span::empty()]. *)
Definition empty (s : span) : bool := bool_decide (sp_size s = 0).

(** [allocate n] stands for xsimd::aligned_allocator::allocate: [None] when
    it throws, otherwise the fresh block with whatever it contains. *)
Definition init (allocate : N → option (list Byte.byte))
    (vector_byte_size n : N) (b : t) : Result unit * t :=
  match allocate (wrap64 (vector_byte_size * n)) with
  | Some buf =>
      (Ok (), {| _vector_byte_size := _vector_byte_size b;
                 _capacity := n; _data := Some (Live buf) |})
  | None => (Err kUnavailable, b)
  end.

Definition at_ (index : N) (b : t) : span :=
  if decide (_capacity b ≤ index) then span_null
  else {| sp_ptr := (λ _, wrap64 (index * _vector_byte_size b)) <$> _data b;
          sp_size := _vector_byte_size b |}.

Definition clear (index : N) (b : t) : Run t :=
  if decide (_capacity b ≤ index) then Done b
  else
    match _data b with
    | Some (Live buf) =>
        buf' ← memcpy buf (wrap64 (index * _vector_byte_size b))
                 (replicate (N.to_nat (_vector_byte_size b)) Byte.x00);
        Done (with_data buf' b)
    | _ => Undef
    end.

Definition set (index : N) (value : list Byte.byte) (b : t) : Run t :=
  if decide (_capacity b ≤ index) then Done b
  else
    match _data b with
    | Some (Live buf) =>
        if decide (N.of_nat (length value) < _vector_byte_size b) then Undef
        else
          buf' ← memcpy buf (wrap64 (index * _vector_byte_size b))
                   (take (N.to_nat (_vector_byte_size b)) value);
          Done (with_data buf' b)
    | _ => Undef
    end.

(** The bytes a span of this batch denotes. *)
Definition span_bytes (b : t) (s : span) : option (list Byte.byte) :=
  match sp_ptr s, _data b with
  | Some off, Some (Live buf) =>
      if decide (N.to_nat off + N.to_nat (sp_size s) ≤ length buf)%nat
      then Some (take (N.to_nat (sp_size s)) (drop (N.to_nat off) buf))
      else None
  | _, _ => None
  end.

End VectorBatch.

(** ** MemStore (store.h, store.cc) *)

(** Of struct VectorSpace (vector_space.h) the store reads one field. *)
Record VectorSpace : Set := mkVectorSpace {
  vector_byte_size : N
}.

(** Modelled from the spec: struct VectorStoreOption lives in
    xann/core/option.h, which is not among the sources.  Spec 6: "a record
    with fields: reserved (initial reserved_id ...), batch_size (slots per
    batch), max_elements (upper bound on lid, beyond which add fails)". *)
Record VectorStoreOption : Set := mkVectorStoreOption {
  reserved : N;
  batch_size : N;
  max_elements : N
}.

Definition kTombstone : N := 1.

Module MemStore.

Record t : Type := mk {
  _vector_space : option VectorSpace;
  _vector_batches : list VectorBatch.t;
  _id_manager : option IdManager;
  _option : VectorStoreOption;
  _snapshot_id : N
}.

(** A span together with the index of the batch it points into. *)
Definition vspan : Type := N * VectorBatch.span.

(** A store before init: null pointers, no batch; [o] is whatever the
    default-constructed option holds, init overwrites it. *)
Definition fresh (o : VectorStoreOption) : t :=
  {| _vector_space := None; _vector_batches := []; _id_manager := None;
     _option := o; _snapshot_id := 0 |}.

Definition with_id_manager (m : IdManager) (s : t) : t :=
  {| _vector_space := _vector_space s; _vector_batches := _vector_batches s;
     _id_manager := Some m; _option := _option s;
     _snapshot_id := _snapshot_id s |}.

Definition with_batches (bs : list VectorBatch.t) (s : t) : t :=
  {| _vector_space := _vector_space s; _vector_batches := bs;
     _id_manager := _id_manager s; _option := _option s;
     _snapshot_id := _snapshot_id s |}.

Definition with_snapshot_id (sid : N) (s : t) : t :=
  {| _vector_space := _vector_space s; _vector_batches := _vector_batches s;
     _id_manager := _id_manager s; _option := _option s;
     _snapshot_id := sid |}.

Definition init (vs : VectorSpace) (opt : VectorStoreOption) (s : t)
    : Run (Result unit * t) :=
  '(r, m) ← initialize [] (reserved opt) (wrap64 (reserved opt + 1))
              IdManager_default;
  Done (r, {| _vector_space := Some vs; _vector_batches := _vector_batches s;
              _id_manager := Some m; _option := opt;
              _snapshot_id := _snapshot_id s |}).

(** [_vector_batches] is grown by push_back alone.  The growth factor is the
    library's: libstdc++ and libc++ double the capacity, so the vector is
    full, and the next push_back moves its elements to new storage, when its
    size is 0 or a power of two. *)
Definition vector_full (n : nat) : bool :=
  bool_decide (n = 0 ∨ n = 2 ^ Nat.log2 n)%nat.

(** The elements of a full vector on push_back: each is move-constructed
    into the new storage and the old object destroyed. *)
Fixpoint relocate (batches : list VectorBatch.t) : Run (list VectorBatch.t) :=
  match batches with
  | [] => Done []
  | b :: bs =>
      b' ← VectorBatch.destructor b;
      bs' ← relocate bs;
      Done (b' :: bs')
  end.

Section WithAllocator.
Variable allocate : N → option (list Byte.byte).

(** The loop [for (auto i = 0; i < diff; i++)] of ensure_space with [k]
    iterations to go: a batch [b], local to the body, is initialised (a
    failed init returns its status), [push_back(std::move(b))] appends a
    copy that shares its block, then [b] is destroyed at the end of the body
    and [i], an [int], is incremented. *)
Fixpoint push_batches (k : nat) (i : Z) (vbs bsz : N)
    (batches : list VectorBatch.t)
    : Run (Result unit * list VectorBatch.t) :=
  match k with
  | O => Done (Ok (), batches)
  | S k' =>
      match VectorBatch.init allocate vbs bsz VectorBatch.default with
      | (Err c, _) => Done (Err c, batches)
      | (Ok _, b) =>
          moved ← (if vector_full (length batches) then relocate batches
                   else Done batches);
          pushed ← VectorBatch.destructor b;
          i' ← int32 (i + 1);
          push_batches k' i' vbs bsz (moved ++ [pushed])
      end
  end.

Definition ensure_space (lid : N) (s : t) : Run (Result vspan * t) :=
  if decide (max_elements (_option s) ≤ lid) then Done (Err kOutOfRange, s)
  else if decide (batch_size (_option s) = 0) then Undef
  else
    let bi := lid / batch_size (_option s) in
    let si := lid mod batch_size (_option s) in
    let size := N.of_nat (length (_vector_batches s)) in
    let diff := if decide (wrap64 (bi + 1) ≤ size) then 0
                else wrap64 (bi + 1) - size in
    match _vector_space s with
    | None => if decide (diff = 0)
              then match _vector_batches s !! N.to_nat bi with
                   | Some b => Done (Ok (bi, VectorBatch.at_ si b), s)
                   | None => Undef
                   end
              else Undef
    | Some vs =>
        '(rs, bs) ← push_batches (N.to_nat diff) 0 (vector_byte_size vs)
                      (batch_size (_option s)) (_vector_batches s);
        match rs with
        | Err c => Done (Err c, with_batches bs s)
        | Ok _ =>
            match bs !! N.to_nat bi with
            | Some b => Done (Ok (bi, VectorBatch.at_ si b), with_batches bs s)
            | None => Undef
            end
        end
    end.

(** [memcpy(sp.data(), vector.data(), vector.size())] through a span
    into batch [bi].  Bytes written into a block that has been deallocated
    are undefined behaviour; a copy of no byte writes nothing. *)
Definition write_span (sp : vspan) (vector : list Byte.byte) (s : t) : Run t :=
  match _vector_batches s !! N.to_nat (fst sp) with
  | None => Undef
  | Some b =>
      match VectorBatch.sp_ptr (snd sp), VectorBatch._data b with
      | Some off, Some (VectorBatch.Live buf) =>
          buf' ← memcpy buf off vector;
          Done (with_batches
                  (<[N.to_nat (fst sp) := VectorBatch.with_data buf' b]>
                     (_vector_batches s)) s)
      | _, _ => match vector with [] => Done s | _ => Undef end
      end
  end.

Definition add_vector (snapshot_id lbl : N) (vector : list Byte.byte)
    (s : t) : Run (Result N * t) :=
  match _id_manager s with
  | None => Undef
  | Some m =>
      '(rs, m') ← alloc_id lbl m;
      let s1 := with_id_manager m' s in
      match rs with
      | Err c => Done (Err c, s1)
      | Ok lid =>
          '(ers, s2) ← ensure_space lid s1;
          match ers with
          | Err c => Done (Err c, s2)
          | Ok sp =>
              s3 ← write_span sp vector s2;
              Done (Ok lid, with_snapshot_id snapshot_id s3)
          end
      end
  end.

End WithAllocator.

Definition remove_vector_by_label (snapshot_id lbl : N) (s : t) : Run t :=
  match _id_manager s with
  | None => Undef
  | Some m => m' ← free_id lbl m;
              Done (with_snapshot_id snapshot_id (with_id_manager m' s))
  end.

Definition remove_vector_by_id (snapshot_id id : N) (s : t) : Run t :=
  match _id_manager s with
  | None => Undef
  | Some m => m' ← free_local_id id m;
              Done (with_snapshot_id snapshot_id (with_id_manager m' s))
  end.

Definition get_id (lbl : N) (s : t) : Run (Result N) :=
  match _id_manager s with
  | None => Undef
  | Some m => Done (local_id lbl m)
  end.

Definition get_vector_by_id (lid : N) (s : t) : Run (Result vspan) :=
  if decide (batch_size (_option s) = 0) then Undef
  else
    let bi := lid / batch_size (_option s) in
    let si := lid mod batch_size (_option s) in
    match _vector_batches s !! N.to_nat bi with
    | None => Undef
    | Some b =>
        let sp := VectorBatch.at_ si b in
        if VectorBatch.empty sp then Done (Err kOutOfRange)
        else Done (Ok (bi, sp))
    end.


(** The bytes a returned span denotes in the store. *)
Definition span_bytes (s : t) (sp : vspan) : option (list Byte.byte) :=
  b ← _vector_batches s !! N.to_nat (fst sp);
  VectorBatch.span_bytes b (snd sp).

(** *** Further members of MemStore (store.cc) *)


Definition tombstone_vector_by_label (snapshot_id lbl : N) (s : t) : Run t :=
  match _id_manager s with
  | None => Undef
  | Some m => m' ← set_label_status lbl kTombstone m;
              Done (with_snapshot_id snapshot_id (with_id_manager m' s))
  end.


(** [size()]: the size of the label map. *)
Definition size (s : t) : Run N :=
  match _id_manager s with
  | None => Undef
  | Some m => Done (N.of_nat (base.size (_id_map m)))
  end.

(** The loops [for (i = reserved_id(); i < end; i++)] of tombstones,
    tombstone_local_ids and tombstone_labels, run for [k] iterations from
    index [i].  The counter cannot wrap: it is bounded by the pool size. *)
Fixpoint count_tombstones (k : nat) (i : N) (ids : list LabelEntity) (n : N)
    : Run N :=
  match k with
  | O => Done n
  | S k' =>
      match ids !! N.to_nat i with
      | None => Undef
      | Some e =>
          count_tombstones k' (i + 1) ids
            (if decide (status e = kTombstone) then n + 1 else n)
      end
  end.

Fixpoint collect_tombstone_lids (k : nat) (i : N) (ids : list LabelEntity)
    (lids : list N) : Run (list N) :=
  match k with
  | O => Done lids
  | S k' =>
      match ids !! N.to_nat i with
      | None => Undef
      | Some e =>
          collect_tombstone_lids k' (i + 1) ids
            (if decide (status e = kTombstone) then lids ++ [i] else lids)
      end
  end.

Fixpoint collect_tombstone_labels (k : nat) (i : N) (ids : list LabelEntity)
    (labels : list N) : Run (list N) :=
  match k with
  | O => Done labels
  | S k' =>
      match ids !! N.to_nat i with
      | None => Undef
      | Some e =>
          collect_tombstone_labels k' (i + 1) ids
            (if decide (status e = kTombstone) then labels ++ [label e]
             else labels)
      end
  end.

(** [end = std::min(ids.size(), next_id())] and the trip count from
    [reserved_id()]. *)
Definition tombstone_end (m : IdManager) : N :=
  N.min (ids_size m) (_next_id m).

Definition tombstones (s : t) : Run N :=
  match _id_manager s with
  | None => Undef
  | Some m =>
      count_tombstones (N.to_nat (tombstone_end m - _reserved_id m))
        (_reserved_id m) (_ids m) 0
  end.

Definition tombstone_local_ids (s : t) : Run (list N) :=
  match _id_manager s with
  | None => Undef
  | Some m =>
      collect_tombstone_lids (N.to_nat (tombstone_end m - _reserved_id m))
        (_reserved_id m) (_ids m) []
  end.

Definition tombstone_labels (s : t) : Run (list N) :=
  match _id_manager s with
  | None => Undef
  | Some m =>
      collect_tombstone_labels (N.to_nat (tombstone_end m - _reserved_id m))
        (_reserved_id m) (_ids m) []
  end.

End MemStore.

(** ** MetricRegistry (metric.h, operator_registry.h, operator_registry.cc) *)

Definition MetricType : Set := Z.
Definition kUndefinedMetric : MetricType := 0%Z.
Definition kJaccard : MetricType := 5%Z.
Definition kMetricTypeMax : MetricType := 30%Z.

Inductive DataType : Set := DT_NONE | DT_UINT8 | DT_FLOAT16 | DT_FLOAT | DT_MAX.

Inductive SimdLevel : Set :=
  SIMD_NONE | SIMD_SSE2 | SIMD_AVX2 | SIMD_AVX512 | SIMD_MAX.

(** [static_cast<int>] on the two enum classes. *)
Definition DataType_int (dt : DataType) : Z :=
  match dt with
  | DT_NONE => 0 | DT_UINT8 => 1 | DT_FLOAT16 => 2 | DT_FLOAT => 3 | DT_MAX => 4
  end%Z.

Definition SimdLevel_int (l : SimdLevel) : Z :=
  match l with
  | SIMD_NONE => 0 | SIMD_SSE2 => 1 | SIMD_AVX2 => 2 | SIMD_AVX512 => 3
  | SIMD_MAX => 4
  end%Z.

(** A function pointer is the name of the kernel it points to. *)
Record OperatorEntity : Set := mkOperatorEntity {
  supports : bool;
  need_normalize_vector : bool;
  simd_level : SimdLevel;
  metric : MetricType;
  data_type : DataType;
  normalize_vector : option string;
  distance_vector : option string;
  norm_vector : option string
}.

Definition OperatorEntity_default : OperatorEntity :=
  {| supports := false; need_normalize_vector := false;
     simd_level := SIMD_NONE; metric := kUndefinedMetric;
     data_type := DT_NONE; normalize_vector := None;
     distance_vector := None; norm_vector := None |}.

Module SimdLevelMap.
Record t : Set := mk { init : bool; operators : list OperatorEntity }.
Definition default : t :=
  {| init := false;
     operators := replicate (Z.to_nat (SimdLevel_int SIMD_MAX))
                    OperatorEntity_default |}.
End SimdLevelMap.

Module DataTypeMap.
Record t : Set := mk { init : bool; operators : list SimdLevelMap.t }.
Definition default : t :=
  {| init := false;
     operators := replicate (Z.to_nat (DataType_int DT_MAX))
                    SimdLevelMap.default |}.
End DataTypeMap.

Module MetricLevelMap.
Record t : Set := mk { init : bool; operators : list DataTypeMap.t }.
Definition default : t :=
  {| init := false;
     operators := replicate (Z.to_nat kMetricTypeMax) DataTypeMap.default |}.
End MetricLevelMap.

Module MetricRegistry.

Record t : Set := mk {
  _finish_build : bool;
  _metric_level_map : list MetricLevelMap.t
}.

(** The constructor before it registers the built-in operators:
    [_metric_level_map.resize(kMetricTypeMax)]. *)
Definition empty : t :=
  {| _finish_build := false;
     _metric_level_map :=
       replicate (Z.to_nat kMetricTypeMax) MetricLevelMap.default |}.

Definition finish_build (r : t) : t :=
  {| _finish_build := true; _metric_level_map := _metric_level_map r |}.

Definition with_map (v : list MetricLevelMap.t) (r : t) : t :=
  {| _finish_build := _finish_build r; _metric_level_map := v |}.

(** The writes of register_operator are made through references into the
    table, so the flags set before a failing check stay set. *)
Definition register_operator (op : OperatorEntity) (replace : bool) (r : t)
    : Run (Result unit * t) :=
  if _finish_build r then Done (Err kFailedPrecondition, r)
  else if decide (metric op ≤ kUndefinedMetric ∨ kMetricTypeMax ≤ metric op)%Z
  then Done (Err kInvalidArgument, r)
  else
    let mi := Z.to_nat (metric op) in
    match _metric_level_map r !! mi with
    | None => Undef
    | Some mit =>
        let set_mit (d : list DataTypeMap.t) : t :=
          with_map (<[mi := {| MetricLevelMap.init := true;
                               MetricLevelMap.operators := d |}]>
                      (_metric_level_map r)) r in
        if decide (DataType_int (data_type op) ≤ DataType_int DT_NONE
                   ∨ DataType_int DT_MAX ≤ DataType_int (data_type op))%Z
        then Done (Err kInvalidArgument, set_mit (MetricLevelMap.operators mit))
        else
          let di := Z.to_nat (DataType_int (data_type op)) in
          match MetricLevelMap.operators mit !! di with
          | None => Undef
          | Some dit =>
              let set_dit (s : list SimdLevelMap.t) : t :=
                set_mit (<[di := {| DataTypeMap.init := true;
                                    DataTypeMap.operators := s |}]>
                           (MetricLevelMap.operators mit)) in
              if decide (SimdLevel_int (simd_level op) < SimdLevel_int SIMD_NONE
                         ∨ SimdLevel_int SIMD_MAX ≤ SimdLevel_int (simd_level op))%Z
              then Done (Err kInvalidArgument,
                         set_dit (DataTypeMap.operators dit))
              else
                let si := Z.to_nat (SimdLevel_int (simd_level op)) in
                match DataTypeMap.operators dit !! si with
                | None => Undef
                | Some sit =>
                    if SimdLevelMap.init sit && negb replace
                    then Done (Err kAlreadyExists,
                               set_dit (DataTypeMap.operators dit))
                    else
                      if decide (si < length (SimdLevelMap.operators sit))%nat
                      then
                        let ops := <[si := op]> (SimdLevelMap.operators sit) in
                        Done (Ok (),
                          set_dit (<[si := {| SimdLevelMap.init := true;
                                              SimdLevelMap.operators := ops |}]>
                                     (DataTypeMap.operators dit)))
                      else Undef
                end
          end
    end.

Definition get_metric_operator (mt : MetricType) (dt : DataType)
    (lv : SimdLevel) (r : t) : Run (Result OperatorEntity) :=
  if decide (mt ≤ kUndefinedMetric ∨ kMetricTypeMax ≤ mt)%Z
  then Done (Err kInvalidArgument)
  else
    match _metric_level_map r !! Z.to_nat mt with
    | None => Undef
    | Some mit =>
        if negb (MetricLevelMap.init mit) then Done (Err kUnavailable)
        else if decide (DataType_int dt ≤ DataType_int DT_NONE
                        ∨ DataType_int DT_MAX ≤ DataType_int dt)%Z
        then Done (Err kInvalidArgument)
        else
          match MetricLevelMap.operators mit !! Z.to_nat (DataType_int dt) with
          | None => Undef
          | Some dit =>
              if negb (DataTypeMap.init dit) then Done (Err kUnavailable)
              else if decide (SimdLevel_int lv < SimdLevel_int SIMD_NONE
                              ∨ SimdLevel_int SIMD_MAX ≤ SimdLevel_int lv)%Z
              then Done (Err kInvalidArgument)
              else
                match DataTypeMap.operators dit !! Z.to_nat (SimdLevel_int lv) with
                | None => Undef
                | Some sit =>
                    if negb (SimdLevelMap.init sit)
                    then Done (Err kAlreadyExists)
                    else
                      match SimdLevelMap.operators sit !! Z.to_nat (SimdLevel_int lv) with
                      | None => Undef
                      | Some op => Done (Ok op)
                      end
                end
          end
    end.

(** [all_metric_operators]: the four nested loops, each level skipped when
    its [init] flag is unset and each entity skipped when it does not
    support its cell. *)
Definition all_metric_operators (r : t) : list OperatorEntity :=
  it ← _metric_level_map r;
  if negb (MetricLevelMap.init it) then []
  else
    dit ← MetricLevelMap.operators it;
    if negb (DataTypeMap.init dit) then []
    else
      sit ← DataTypeMap.operators dit;
      if negb (SimdLevelMap.init sit) then []
      else filter (λ op, supports op = true) (SimdLevelMap.operators sit).

(** The [u8] entity that initialize_l0_jaccard_operator registers
    (jaccard_operator.cc). *)
Definition jaccard_u8 : OperatorEntity :=
  {| supports := true; need_normalize_vector := false;
     simd_level := SIMD_NONE; metric := kJaccard; data_type := DT_UINT8;
     normalize_vector := None;
     distance_vector := Some "simple_jaccard_distance"%string;
     norm_vector := None |}.

End MetricRegistry.

(** ** VectorSpace::create (vector_space.h, vector_space.cc) *)

(** [data_type_size]: the [sizeof] of the element type. *)
Definition data_type_size (dt : DataType) : Result Z :=
  match dt with
  | DT_UINT8 => Ok 1%Z
  | DT_FLOAT16 => Ok 2%Z
  | DT_FLOAT => Ok 4%Z
  | _ => Err kInvalidArgument
  end.

Module VectorSpaceImpl.

Definition kAlignmentBytes : Z := 64.

(** struct VectorSpace with all its data members but the stateless
    allocator. *)
Record t : Set := mk {
  dim : Z;
  metric : MetricType;
  data_type : DataType;
  alignment_dim : Z;
  vector_byte_size : Z;
  alignment_bytes : Z;
  element_size : Z;
  need_normalize_vector : bool;
  arch_name : string;
  standard_operation : OperatorEntity;
  operation : OperatorEntity
}.

Section Create.
(** [MetricRegistry::instance()] and [xsimd::default_arch::name()]. *)
Variable registry : MetricRegistry.t.
Variable default_arch_name : string.

(** [alignment_bytes] is the allocator's [alignment], its template argument
    [kAlignmentBytes]; [/] on [int32_t] truncates towards zero. *)
Definition create (dim : Z) (metric : MetricType) (dt : DataType)
    (level : SimdLevel) : Run (Result t) :=
  match data_type_size dt with
  | Err c => Done (Err c)
  | Ok element_size =>
      bytes ← int32 (element_size * dim);
      padded ← int32 (bytes + kAlignmentBytes);
      padded ← int32 (padded - 1);
      vector_byte_size ← int32 (Z.quot padded kAlignmentBytes * kAlignmentBytes);
      msrs ← MetricRegistry.get_metric_operator metric dt SIMD_NONE registry;
      match msrs with
      | Err c => Done (Err c)
      | Ok standard =>
          mrs ← MetricRegistry.get_metric_operator metric dt level registry;
          match mrs with
          | Err c => Done (Err c)
          | Ok ms =>
              if negb (supports ms) then Done (Err kUnavailable)
              else
                let 'mkOperatorEntity _ normalize _ _ _ _ _ _ := ms in
                Done (Ok {| dim := dim; metric := metric; data_type := dt;
                            alignment_dim := Z.quot vector_byte_size element_size;
                            vector_byte_size := vector_byte_size;
                            alignment_bytes := kAlignmentBytes;
                            element_size := element_size;
                            need_normalize_vector := normalize;
                            arch_name := default_arch_name;
                            standard_operation := standard;
                            operation := ms |})
          end
      end
  end.

End Create.

End VectorSpaceImpl.

(** * Specification predicates and concrete inputs *)

(** The pool initialize works on: the caller's vector, grown when it is
    shorter than [next_id]. *)
Definition adopted_pool (map : list LabelEntity) (next_id : N) : list LabelEntity :=
  _ids (let m1 := with_ids map IdManager_default in
        if decide (N.of_nat (length map) < next_id)
        then resize (wrap64 (next_id + kDefaultGrowth)) m1 else m1).

Definition trailing_compact (m : IdManager) : Prop :=
  _next_id m = _reserved_id m ∨ _next_id m - 1 ∉ _free_ids m.

(** One call of a public mutator of IdManager that returns: initialize,
    alloc_id, free_id, free_local_id, set_reserved_id and the two status
    writers; resize and grow are not among them. *)
Inductive step (m : IdManager) : IdManager → Prop :=
  | step_initialize map r n st m' :
      initialize map r n m = Done (st, m') → step m m'
  | step_alloc_id lbl r m' :
      alloc_id lbl m = Done (r, m') → step m m'
  | step_free_id lbl m' :
      free_id lbl m = Done m' → step m m'
  | step_free_local_id lid m' :
      free_local_id lid m = Done m' → step m m'
  | step_set_reserved_id lid lbl m' :
      set_reserved_id lid lbl m = Done m' → step m m'
  | step_set_label_status lbl st m' :
      set_label_status lbl st m = Done m' → step m m'
  | step_set_local_id_status lid st m' :
      set_local_id_status lid st m = Done m' → step m m'.

Definition compact_inv (m : IdManager) : Prop :=
  _initialized m = true ∧ _reserved_id m ≤ _next_id m ∧ trailing_compact m.

(** Every map entry points into the active range at a slot carrying its
    label; every free lid lies in the active range, carries the sentinel and
    is the value of no map entry. *)
Definition id_inv (m : IdManager) : Prop :=
  _initialized m = true
  ∧ _reserved_id m ≤ _next_id m
  ∧ (∀ l v, _id_map m !! l = Some v →
       _reserved_id m ≤ v < _next_id m
       ∧ label <$> _ids m !! N.to_nat v = Some l)
  ∧ (∀ x, x ∈ _free_ids m →
       _reserved_id m ≤ x < _next_id m
       ∧ label <$> _ids m !! N.to_nat x = Some kInvalidId
       ∧ ∀ l, _id_map m !! l ≠ Some x).

(** A call of a public mutator inside its contract: as [step], without
    set_reserved_id, and with free_local_id confined to the active range. *)
Inductive contract_step (m : IdManager) : IdManager → Prop :=
  | cstep_initialize map r n st m' :
      initialize map r n m = Done (st, m') → contract_step m m'
  | cstep_alloc_id lbl r m' :
      alloc_id lbl m = Done (r, m') → contract_step m m'
  | cstep_free_id lbl m' :
      free_id lbl m = Done m' → contract_step m m'
  | cstep_free_local_id lid m' :
      _reserved_id m ≤ lid < _next_id m →
      free_local_id lid m = Done m' → contract_step m m'
  | cstep_set_label_status lbl st m' :
      set_label_status lbl st m = Done m' → contract_step m m'
  | cstep_set_local_id_status lid st m' :
      set_local_id_status lid st m = Done m' → contract_step m m'.




(** The manager MemStore::init builds for [reserved = 5]:
    [initialize({}, 5, 6)]. *)
Definition mgr_5_6 : IdManager :=
  {| _free_ids := {[5]}; _ids := replicate 262 le; _next_id := 6;
     _reserved_id := 5; _id_map := ∅; _initialized := true |}.

Definition vs64 : VectorSpace := {| vector_byte_size := 64 |}.

(** The option of the first end-to-end scenario of the specification. *)
Definition option_5_4_1024 : VectorStoreOption :=
  {| reserved := 5; batch_size := 4; max_elements := 1024 |}.


(** An allocator that always succeeds and hands out zeroed memory. *)
Definition zero_allocate (n : N) : option (list Byte.byte) :=
  Some (replicate (N.to_nat n) Byte.x00).

(** The 64 bytes written by the caller in the runs below. *)
Definition vec64 : list Byte.byte := replicate 64 Byte.x2a.

(** The manager after [alloc_id(100)] and [alloc_id(101)] on [mgr_5_6]. *)
Definition mgr_two : IdManager :=
  {| _free_ids := ∅;
     _ids := replicate 5 le
             ++ [ {| label := 100; status := 0 |};
                  {| label := 101; status := 0 |} ]
             ++ replicate 255 le;
     _next_id := 7; _reserved_id := 5;
     _id_map := {[ 100 := 5; 101 := 6 ]}; _initialized := true |}.

(** The labels of the slots [r, n) of a pool are pairwise distinct, the
    sentinel apart. *)
Definition pool_distinct (pool : list LabelEntity) (r n : N) : Prop :=
  ∀ i j l, r ≤ i < n → r ≤ j < n →
    label <$> pool !! N.to_nat i = Some l →
    label <$> pool !! N.to_nat j = Some l →
    l ≠ kInvalidId → i = j.

(** A call inside the contract whose label, for alloc_id, is not the
    sentinel. *)
Inductive label_step (m : IdManager) : IdManager → Prop :=
  | lstep_initialize map r n st m' :
      initialize map r n m = Done (st, m') → label_step m m'
  | lstep_alloc_id lbl r m' :
      lbl ≠ kInvalidId → alloc_id lbl m = Done (r, m') → label_step m m'
  | lstep_free_id lbl m' :
      free_id lbl m = Done m' → label_step m m'
  | lstep_free_local_id lid m' :
      _reserved_id m ≤ lid < _next_id m →
      free_local_id lid m = Done m' → label_step m m'
  | lstep_set_label_status lbl st m' :
      set_label_status lbl st m = Done m' → label_step m m'
  | lstep_set_local_id_status lid st m' :
      set_local_id_status lid st m = Done m' → label_step m m'.

(** The active range is split between the free set and the values of the
    map, the sentinel is no key, and the two sizes add up to the length of
    the active range. *)
Definition part_inv (m : IdManager) : Prop :=
  id_inv m
  ∧ _id_map m !! kInvalidId = None
  ∧ (∀ x, _reserved_id m ≤ x < _next_id m →
       x ∈ _free_ids m ∨ ∃ l, _id_map m !! l = Some x)
  ∧ N.of_nat (size (_id_map m)) + N.of_nat (size (_free_ids m))
      + _reserved_id m = _next_id m.


(** The store MemStore::init builds from [option_5_4_1024], and the same
    with [max_elements = 5], so that the first lid is already out of range. *)
Definition store_5_4_1024 : MemStore.t :=
  {| MemStore._vector_space := Some vs64; MemStore._vector_batches := [];
     MemStore._id_manager := Some mgr_5_6;
     MemStore._option := option_5_4_1024; MemStore._snapshot_id := 0 |}.

Definition store_5_4_5 : MemStore.t :=
  {| MemStore._vector_space := Some vs64; MemStore._vector_batches := [];
     MemStore._id_manager := Some mgr_5_6;
     MemStore._option := {| reserved := 5; batch_size := 4; max_elements := 5 |};
     MemStore._snapshot_id := 0 |}.

(** [store_5_4_1024] with the two labels of [mgr_two]. *)
Definition store_two : MemStore.t :=
  {| MemStore._vector_space := Some vs64; MemStore._vector_batches := [];
     MemStore._id_manager := Some mgr_two;
     MemStore._option := option_5_4_1024; MemStore._snapshot_id := 101 |}.


(** The three axes of a registry cell are in range. *)
Definition in_range (mt : MetricType) (dt : DataType) (lv : SimdLevel) : Prop :=
  (kUndefinedMetric < mt < kMetricTypeMax)%Z
  ∧ (DataType_int DT_NONE < DataType_int dt < DataType_int DT_MAX)%Z
  ∧ (SimdLevel_int SIMD_NONE ≤ SimdLevel_int lv < SimdLevel_int SIMD_MAX)%Z.

(** The tables have the sizes their constructors give them, and a populated
    level lies under populated levels only. *)
Definition sit_ok (s : SimdLevelMap.t) : Prop :=
  length (SimdLevelMap.operators s) = Z.to_nat (SimdLevel_int SIMD_MAX).

Definition dit_ok (d : DataTypeMap.t) : Prop :=
  length (DataTypeMap.operators d) = Z.to_nat (DataType_int DT_MAX)
  ∧ Forall sit_ok (DataTypeMap.operators d)
  ∧ Forall (λ s, SimdLevelMap.init s = true → DataTypeMap.init d = true)
      (DataTypeMap.operators d).

Definition mit_ok (m : MetricLevelMap.t) : Prop :=
  length (MetricLevelMap.operators m) = Z.to_nat kMetricTypeMax
  ∧ Forall dit_ok (MetricLevelMap.operators m)
  ∧ Forall (λ d, DataTypeMap.init d = true → MetricLevelMap.init m = true)
      (MetricLevelMap.operators m).

Definition registry_ok (r : MetricRegistry.t) : Prop :=
  length (MetricRegistry._metric_level_map r) = Z.to_nat kMetricTypeMax
  ∧ Forall mit_ok (MetricRegistry._metric_level_map r).

(** What a lookup finds below each level of the table. *)
Definition sit_cell (s : SimdLevelMap.t) (lv : SimdLevel) (e : OperatorEntity)
    : Prop :=
  SimdLevelMap.init s = true
  ∧ SimdLevelMap.operators s !! Z.to_nat (SimdLevel_int lv) = Some e.

Definition dit_cell (d : DataTypeMap.t) (lv : SimdLevel) (e : OperatorEntity)
    : Prop :=
  DataTypeMap.init d = true
  ∧ ∃ s, DataTypeMap.operators d !! Z.to_nat (SimdLevel_int lv) = Some s
      ∧ sit_cell s lv e.

Definition mit_cell (m : MetricLevelMap.t) (dt : DataType) (lv : SimdLevel)
    (e : OperatorEntity) : Prop :=
  MetricLevelMap.init m = true
  ∧ ∃ d, MetricLevelMap.operators m !! Z.to_nat (DataType_int dt) = Some d
      ∧ dit_cell d lv e.


(** One public mutator of the registry. *)
Inductive registry_step (r : MetricRegistry.t) : MetricRegistry.t → Prop :=
  | rstep_register op replace res r' :
      MetricRegistry.register_operator op replace r = Done (res, r') →
      registry_step r r'
  | rstep_finish : registry_step r (MetricRegistry.finish_build r).

(** Every supporting entity of the table sits in the cell of its own
    triple. *)
Definition registry_own (r : MetricRegistry.t) : Prop :=
  ∀ mi m di d si s k e,
    MetricRegistry._metric_level_map r !! mi = Some m →
    MetricLevelMap.operators m !! di = Some d →
    DataTypeMap.operators d !! si = Some s →
    SimdLevelMap.operators s !! k = Some e →
    supports e = true →
    in_range (metric e) (data_type e) (simd_level e)
    ∧ mi = Z.to_nat (metric e)
    ∧ di = Z.to_nat (DataType_int (data_type e))
    ∧ si = Z.to_nat (SimdLevel_int (simd_level e))
    ∧ k = Z.to_nat (SimdLevel_int (simd_level e)).


(** The registry after the registration of [jaccard_u8]. *)
Definition registry_jaccard : MetricRegistry.t :=
  match MetricRegistry.register_operator MetricRegistry.jaccard_u8 false
          MetricRegistry.empty with
  | Done (_, r) => r
  | _ => MetricRegistry.empty
  end.

(** The [f32] entity that initialize_sse2_jaccard_operator registers
    (jaccard_operator.cc), and the registry after it is registered too. *)
Definition jaccard_f32_sse2 : OperatorEntity :=
  {| supports := true; need_normalize_vector := false;
     simd_level := SIMD_SSE2; metric := kJaccard; data_type := DT_FLOAT;
     normalize_vector := None;
     distance_vector := Some "simd_distance_jaccard<xsimd::sse3>"%string;
     norm_vector := None |}.

Definition registry_jaccard_sse2 : MetricRegistry.t :=
  match MetricRegistry.register_operator jaccard_f32_sse2 false
          registry_jaccard with
  | Done (_, r) => r
  | _ => registry_jaccard
  end.




(** * Properties *)

(** ** begin() of the ordered free set *)

Lemma foldr_min_le (x : N) (l : list N) :
  foldr N.min x l ≤ x ∧ ∀ y, y ∈ l → foldr N.min x l ≤ y.
Proof.
  induction l as [|a l [IHx IHl]]; simpl.
  - split; [lia|]. intros y Hy. by apply elem_of_nil in Hy.
  - split; [lia|]. intros y Hy. apply elem_of_cons in Hy as [->|Hy].
    + lia.
    + specialize (IHl y Hy). lia.
Qed.

Lemma foldr_min_elem (x : N) (l : list N) : foldr N.min x l ∈ x :: l.
Proof.
  induction l as [|a l IH]; simpl.
  - apply elem_of_cons. by left.
  - rewrite !elem_of_cons. apply elem_of_cons in IH.
    destruct (N.min_spec a (foldr N.min x l)) as [[_ ->]|[_ ->]]; tauto.
Qed.

Lemma set_begin_None (s : gset N) : set_begin s = None ↔ s = ∅.
Proof.
  unfold set_begin. split.
  - destruct (elements s) eqn:E; [|done]. intros _.
    by apply elements_empty_inv in E; apply leibniz_equiv in E.
  - intros ->. by rewrite elements_empty.
Qed.

Lemma set_begin_Some (s : gset N) (x : N) :
  set_begin s = Some x → x ∈ s ∧ ∀ y, y ∈ s → x ≤ y.
Proof.
  unfold set_begin. destruct (elements s) as [|a l] eqn:E; [done|].
  intros [= <-]. split.
  - apply elem_of_elements. rewrite E. apply foldr_min_elem.
  - intros y Hy. apply elem_of_elements in Hy. rewrite E in Hy.
    destruct (foldr_min_le a l) as [Ha Hl].
    apply elem_of_cons in Hy as [->|Hy]; [done|by apply Hl].
Qed.


(** ** Slot updates *)

Lemma set_slot_label_length lid lbl v : length (set_slot_label lid lbl v) = length v.
Proof. apply length_alter. Qed.

Lemma set_slot_status_length lid st v : length (set_slot_status lid st v) = length v.
Proof. apply length_alter. Qed.

Lemma set_slot_label_lookup lid lbl v e :
  v !! N.to_nat lid = Some e →
  set_slot_label lid lbl v !! N.to_nat lid
  = Some {| label := lbl; status := status e |}.
Proof. intros H. unfold set_slot_label. by rewrite list_lookup_alter_eq, H. Qed.

Lemma set_slot_label_lookup_ne lid lbl v (j : nat) :
  N.to_nat lid ≠ j → set_slot_label lid lbl v !! j = v !! j.
Proof. intros H. unfold set_slot_label. by rewrite list_lookup_alter_ne. Qed.

Lemma set_slot_status_label lid st v (j : nat) :
  label <$> set_slot_status lid st v !! j = label <$> v !! j.
Proof.
  unfold set_slot_status. destruct (decide (N.to_nat lid = j)) as [<-|Hne].
  - rewrite list_lookup_alter_eq. by destruct (v !! N.to_nat lid).
  - by rewrite list_lookup_alter_ne.
Qed.

Lemma lookup_lt_ids (m : IdManager) (lid : N) :
  lid < ids_size m → is_Some (_ids m !! N.to_nat lid).
Proof. unfold ids_size. intros H. apply lookup_lt_is_Some. lia. Qed.

(** ** alloc_id *)

Lemma alloc_id_exists (lbl : N) (m : IdManager) :
  _initialized m = true → is_Some (_id_map m !! lbl) →
  alloc_id lbl m = Done (Err kAlreadyExists, m).
Proof. intros Hi Hs. unfold alloc_id. rewrite Hi. simpl. by rewrite decide_True. Qed.

Lemma alloc_id_reuse (lbl lid : N) (m : IdManager) :
  _initialized m = true → _id_map m !! lbl = None →
  set_begin (_free_ids m) = Some lid → lid < ids_size m →
  alloc_id lbl m
  = Done (Ok lid, allocated lbl lid (_free_ids m ∖ {[lid]}) (_next_id m) m).
Proof.
  intros Hi Hn Hb Hlt. unfold alloc_id, allocated. rewrite Hi, Hn, Hb. simpl.
  repeat case_decide; done.
Qed.


Lemma alloc_id_exhausted (lbl : N) (m : IdManager) :
  _initialized m = true → _id_map m !! lbl = None →
  _free_ids m = ∅ → ids_size m ≤ _next_id m →
  alloc_id lbl m = Done (Err kResourceExhausted, m).
Proof.
  intros Hi Hn He Hge.
  assert (set_begin (_free_ids m) = None) as Hb by (by apply set_begin_None).
  unfold alloc_id, allocated. rewrite Hi, Hn, Hb. simpl.
  repeat case_decide; try done; lia.
Qed.

(** Every way alloc_id can return. *)
Lemma alloc_id_cases (lbl : N) (m : IdManager) (r : Result N) (m' : IdManager) :
  alloc_id lbl m = Done (r, m') →
  _initialized m = true ∧
  ((is_Some (_id_map m !! lbl) ∧ r = Err kAlreadyExists ∧ m' = m)
   ∨ (_id_map m !! lbl = None ∧ _free_ids m = ∅ ∧ ids_size m ≤ _next_id m
      ∧ r = Err kResourceExhausted ∧ m' = m)
   ∨ (∃ lid, _id_map m !! lbl = None ∧ set_begin (_free_ids m) = Some lid
        ∧ lid < ids_size m ∧ r = Ok lid
        ∧ m' = allocated lbl lid (_free_ids m ∖ {[lid]}) (_next_id m) m)
   ∨ (_id_map m !! lbl = None ∧ _free_ids m = ∅ ∧ _next_id m < ids_size m
      ∧ r = Ok (_next_id m)
      ∧ m' = allocated lbl (_next_id m) (_free_ids m) (_next_id m + 1) m)).
Proof.
  unfold alloc_id, allocated. destruct (_initialized m); [|done]. simpl.
  case_decide as Hs.
  { intros [= <- <-]. split; [done|]. by left. }
  assert (_id_map m !! lbl = None) as Hn.
  { destruct (_id_map m !! lbl) eqn:E; [|done]. destruct Hs. by eexists. }
  destruct (set_begin (_free_ids m)) as [lid|] eqn:Hb.
  - case_decide as Hlt; [|done]. intros [= <- <-]. split; [done|].
    right; right; left. by exists lid.
  - apply set_begin_None in Hb. case_decide as Hge.
    + intros [= <- <-]. split; [done|]. right; left. done.
    + case_decide as Hlt; [|done]. intros [= <- <-]. split; [done|].
      right; right; right. repeat split; done.
Qed.


(** ** initialize *)

Lemma scan_spec (k : nat) : ∀ (i : N) (ids : list LabelEntity)
    (free : gset N) (mp : gmap N N),
  (0 < k → N.to_nat i + k ≤ length ids)%nat →
  ∃ fr' mp', scan k i ids free mp = Done (fr', mp')
    ∧ (∀ x, x ∈ fr' ↔
         x ∈ free ∨ (i ≤ x < i + N.of_nat k
                     ∧ label <$> ids !! N.to_nat x = Some kInvalidId))
    ∧ (∀ l v, mp' !! l = Some v →
         mp !! l = Some v
         ∨ (i ≤ v < i + N.of_nat k
            ∧ label <$> ids !! N.to_nat v = Some l ∧ l ≠ kInvalidId)).
Proof.
  induction k as [|k IH]; intros i ids free mp Hlen; simpl.
  - exists free, mp. split; [done|]. split.
    + intros x. split; [by left|]. intros [?|[? _]]; [done|lia].
    + intros l v ?. by left.
  - specialize (Hlen ltac:(lia)).
    destruct (lookup_lt_is_Some_2 ids (N.to_nat i)) as [e He]; [lia|].
    rewrite He. case_decide as Hl.
    + destruct (IH (i + 1) ids ({[i]} ∪ free) mp) as (fr' & mp' & -> & Hfr & Hmp);
        [lia|].
      exists fr', mp'. split; [done|]. split.
      * intros x. rewrite Hfr, elem_of_union, elem_of_singleton. split.
        -- intros [[->|?]|[? ?]].
           ++ right. split; [lia|]. by rewrite He; simpl; rewrite Hl.
           ++ by left.
           ++ right. split; [lia|done].
        -- intros [?|[? Hx]]; [by left; right|].
           destruct (decide (x = i)) as [->|Hne]; [by left; left|].
           right. split; [lia|done].
      * intros l v Hv. destruct (Hmp l v Hv) as [?|(? & ? & ?)]; [by left|].
        right. split; [lia|done].
    + destruct (IH (i + 1) ids free (<[label e := i]> mp))
        as (fr' & mp' & -> & Hfr & Hmp); [lia|].
      exists fr', mp'. split; [done|]. split.
      * intros x. rewrite Hfr. split.
        -- intros [?|[? ?]]; [by left|]. right. split; [lia|done].
        -- intros [?|[? Hx]]; [by left|].
           destruct (decide (x = i)) as [->|Hne].
           ++ rewrite He in Hx. simpl in Hx. congruence.
           ++ right. split; [lia|done].
      * intros l v Hv. destruct (Hmp l v Hv) as [Hin|(? & ? & ?)].
        -- destruct (decide (label e = l)) as [<-|Hne].
           ++ rewrite lookup_insert_eq in Hin. injection Hin as <-.
              right. split; [lia|]. by rewrite He.
           ++ rewrite lookup_insert_ne in Hin by done. by left.
        -- right. split; [lia|done].
Qed.


Lemma scan_done_bound (k : nat) : ∀ (i : N) (ids : list LabelEntity)
    (free : gset N) (mp : gmap N N) res,
  scan k i ids free mp = Done res →
  (0 < k → N.to_nat i + k ≤ length ids)%nat.
Proof.
  induction k as [|k IH]; intros i ids free mp res; simpl; [lia|].
  destruct (ids !! N.to_nat i) as [e|] eqn:He; [|done].
  apply lookup_lt_Some in He.
  case_decide; intros Hs _; (destruct k as [|k']; [lia|apply IH in Hs; lia]).
Qed.

(** What a completed first initialize leaves. *)
Lemma initialize_done_spec (map : list LabelEntity) (r n : N) (m : IdManager) :
  initialize map r n IdManager_default = Done (Ok (), m) →
  _initialized m = true ∧ _reserved_id m = r ∧ _next_id m = n
  ∧ _ids m = adopted_pool map n
  ∧ (r < n → n ≤ ids_size m)
  ∧ (∀ x, x ∈ _free_ids m ↔
       r ≤ x < n ∧ label <$> _ids m !! N.to_nat x = Some kInvalidId)
  ∧ (∀ l v, _id_map m !! l = Some v →
       r ≤ v < n ∧ label <$> _ids m !! N.to_nat v = Some l
       ∧ l ≠ kInvalidId).
Proof.
  unfold initialize. simpl.
  set (m2 := if decide (ids_size _ < n) then _ else _).
  assert (_ids m2 = adopted_pool map n) as Hids.
  { unfold m2, adopted_pool, resize, ids_size. simpl.
    repeat case_decide; simpl in *; try done; lia. }
  assert (_next_id m2 = n ∧ _reserved_id m2 = r ∧ _free_ids m2 = ∅
          ∧ _id_map m2 = ∅) as (Hn & Hr & Hf & Hm).
  { unfold m2, resize. by repeat case_decide. }
  rewrite Hn, Hr, Hf, Hm, Hids.
  destruct (scan _ _ _ _ _) as [[fr mp]| |] eqn:E; [|done..].
  simpl. intros [= <-]. simpl.
  pose proof (scan_done_bound _ _ _ _ _ _ E) as Hb.
  destruct (scan_spec _ _ _ ∅ ∅ Hb) as (fr' & mp' & E' & Hfr & Hmp).
  rewrite E in E'. injection E' as <- <-.
  split; [done|]. split; [done|]. split; [done|]. split; [done|].
  split; [|split].
  - intros Hlt. unfold ids_size. simpl. lia.
  - intros x. rewrite Hfr. split.
    + intros [Hx|[? ?]]; [by apply not_elem_of_empty in Hx|]. split; [lia|done].
    + intros [? ?]. right. split; [lia|done].
  - intros l v Hv. apply Hmp in Hv as [Hv|(? & ? & ?)].
    + by rewrite lookup_empty in Hv.
    + split; [lia|done].
Qed.




(** Neither exit of initialize carries a failed status. *)
Lemma initialize_never_fails (map : list LabelEntity) (r n : N) (m : IdManager)
    (c : StatusCode) (m' : IdManager) :
  initialize map r n m ≠ Done (Err c, m').
Proof.
  unfold initialize. destruct (_initialized m); [done|].
  match goal with
  | |- context [scan ?k ?i ?v ?f ?p] => destruct (scan k i v f p) as [[? ?]| |]
  end; done.
Qed.

(** ** The sentinel as a label *)


(** ** shrink_next_id *)

Lemma shrink_loop_spec (fuel : nat) : ∀ (reserved : N) (free : gset N)
    (next : N) (fr : gset N) (nx : N),
  (N.to_nat (next - reserved) ≤ fuel)%nat →
  shrink_loop fuel reserved free next = (fr, nx) →
  (nx ≤ reserved ∨ nx - 1 ∉ fr)
  ∧ nx ≤ next
  ∧ (reserved ≤ next → reserved ≤ nx)
  ∧ (∀ x, x ∈ fr ↔ x ∈ free ∧ ¬ (nx ≤ x < next))
  ∧ (∀ x, nx ≤ x < next → x ∈ free).
Proof.
  assert (∀ reserved (free : gset N) next,
            (next ≤ reserved ∨ next - 1 ∉ free) →
            (next ≤ reserved ∨ next - 1 ∉ free)
            ∧ next ≤ next
            ∧ (reserved ≤ next → reserved ≤ next)
            ∧ (∀ x, x ∈ free ↔ x ∈ free ∧ ¬ (next ≤ x < next))
            ∧ (∀ x, next ≤ x < next → x ∈ free)) as Hstop.
  { intros reserved free next H. split; [done|]. split; [lia|]. split; [done|].
    split; [|intros; lia]. intros x. split; [|tauto]. intros ?. split; [done|lia]. }
  induction fuel as [|fuel IH]; intros reserved free next fr nx Hfuel; simpl.
  - intros [= <- <-]. apply Hstop. left. lia.
  - case_decide as Hlt.
    + case_decide as Hin.
      * intros Hrec.
        destruct (IH reserved (free ∖ {[next - 1]}) (next - 1) fr nx ltac:(lia) Hrec)
          as (H1 & H2 & H3 & H4 & H5).
        split; [done|]. split; [lia|]. split; [lia|]. split.
        -- intros x. rewrite H4, elem_of_difference, elem_of_singleton.
           split.
           ++ intros [[? ?] ?]. split; [done|lia].
           ++ intros [? ?]. split; [split; [done|lia]|lia].
        -- intros x Hx. destruct (decide (x = next - 1)) as [->|Hne]; [done|].
           assert (x ∈ free ∖ {[next - 1]}) as Hx' by (apply H5; lia).
           by apply elem_of_difference in Hx' as [? _].
      * intros [= <- <-]. apply Hstop. by right.
    + intros [= <- <-]. apply Hstop. left. lia.
Qed.

Lemma shrink_next_id_spec (m : IdManager) :
  let m' := shrink_next_id m in
  _ids m' = _ids m ∧ _id_map m' = _id_map m
  ∧ _reserved_id m' = _reserved_id m ∧ _initialized m' = _initialized m
  ∧ (_next_id m' ≤ _reserved_id m ∨ _next_id m' - 1 ∉ _free_ids m')
  ∧ _next_id m' ≤ _next_id m
  ∧ (_reserved_id m ≤ _next_id m → _reserved_id m ≤ _next_id m')
  ∧ (∀ x, x ∈ _free_ids m' ↔
       x ∈ _free_ids m ∧ ¬ (_next_id m' ≤ x < _next_id m))
  ∧ (∀ x, _next_id m' ≤ x < _next_id m → x ∈ _free_ids m).
Proof.
  unfold shrink_next_id.
  destruct (shrink_loop _ _ _ _) as [fr nx] eqn:E. simpl.
  apply shrink_loop_spec in E; [|lia]. tauto.
Qed.

(** ** Trailing compactness *)

Lemma release_compact (lid : N) (m : IdManager) :
  _reserved_id m ≤ _next_id m →
  let m' := release lid m in
  _initialized m' = _initialized m ∧ _reserved_id m' = _reserved_id m
  ∧ _reserved_id m' ≤ _next_id m' ∧ trailing_compact m'.
Proof.
  intros Hle. unfold release.
  match goal with |- context [shrink_next_id ?x] =>
    destruct (shrink_next_id_spec x) as (_ & _ & Hr & Hi & Hc & _ & Hge & _) end.
  simpl in *. rewrite Hr, Hi. repeat split; [by apply Hge|].
  unfold trailing_compact. rewrite Hr. simpl.
  destruct Hc as [Hc|Hc]; [left|by right]. specialize (Hge Hle). lia.
Qed.

Lemma free_id_cases (lbl : N) (m m' : IdManager) :
  free_id lbl m = Done m' →
  _initialized m = true ∧
  ((_id_map m !! lbl = None ∧ m' = m)
   ∨ (∃ lid, _id_map m !! lbl = Some lid ∧ ids_size m ≤ lid
        ∧ m' = with_id_map (delete lbl (_id_map m)) m)
   ∨ (∃ lid, _id_map m !! lbl = Some lid ∧ lid < ids_size m
        ∧ m' = release lid (with_id_map (delete lbl (_id_map m)) m))).
Proof.
  unfold free_id. destruct (_initialized m); [|done]. simpl.
  destruct (_id_map m !! lbl) as [lid|].
  - case_decide as H; intros [= <-]; (split; [done|]); right.
    + left. exists lid. done.
    + right. exists lid. unfold ids_size in *. simpl in *. split; [done|].
      split; [lia|done].
  - intros [= <-]. split; [done|]. by left.
Qed.

Lemma free_local_id_cases (lid : N) (m m' : IdManager) :
  free_local_id lid m = Done m' →
  _initialized m = true ∧
  ((ids_size m ≤ lid ∧ m' = m)
   ∨ (∃ e, lid < ids_size m ∧ _ids m !! N.to_nat lid = Some e
        ∧ m' = release lid (with_id_map (delete (label e) (_id_map m)) m))).
Proof.
  unfold free_local_id. destruct (_initialized m); [|done]. simpl.
  case_decide as H.
  - intros [= <-]. split; [done|]. by left.
  - destruct (_ids m !! N.to_nat lid) as [e|] eqn:E; [|done].
    intros [= <-]. split; [done|]. right. exists e. split; [lia|done].
Qed.

Lemma set_local_id_status_cases (lid st : N) (m m' : IdManager) :
  set_local_id_status lid st m = Done m' →
  _initialized m = true
  ∧ (m' = m ∨ m' = with_ids (set_slot_status lid st (_ids m)) m).
Proof.
  unfold set_local_id_status. destruct (_initialized m); [|done]. simpl.
  case_decide; intros [= <-]; auto.
Qed.

Lemma set_label_status_cases (lbl st : N) (m m' : IdManager) :
  set_label_status lbl st m = Done m' →
  m' = m ∨ ∃ lid, m' = with_ids (set_slot_status lid st (_ids m)) m.
Proof.
  unfold set_label_status. destruct (_id_map m !! lbl) as [lid|].
  - intros H. apply set_local_id_status_cases in H as [_ [->| ->]]; eauto.
  - intros [= <-]. by left.
Qed.

Lemma step_compact_inv (m m' : IdManager) :
  compact_inv m → step m m' → compact_inv m'.
Proof.
  intros (Hi & Hle & Hc) Hstep. destruct Hstep as
    [map r n st m' H|lbl r m' H|lbl m' H|lid m' H|lid lbl m' H|lbl st m' H|lid st m' H].
  - unfold initialize in H. rewrite Hi in H. by injection H as _ <-.
  - apply alloc_id_cases in H as [_ H].
    destruct H as [(_&_&->)|[(_&_&_&_&->)|[(lid&_&Hb&_&_&->)|(_&He&_&_&->)]]];
      try done.
    + split; [done|]. split; [done|]. unfold trailing_compact in *. simpl.
      destruct Hc as [?|Hc]; [by left|right].
      intros Hx. by apply elem_of_difference in Hx as [? _].
    + split; [done|]. split; [simpl; lia|]. unfold trailing_compact. simpl.
      right. rewrite He. apply not_elem_of_empty.
  - apply free_id_cases in H as [_ H].
    destruct H as [(_&->)|[(lid&_&_&->)|(lid&_&_&->)]]; try done.
    match goal with |- compact_inv (release ?l ?x) =>
      destruct (release_compact l x Hle) as (Hi' & _ & ? & ?) end.
    split; [by rewrite Hi'|done].
  - apply free_local_id_cases in H as [_ H].
    destruct H as [(_&->)|(e&_&_&->)]; try done.
    match goal with |- compact_inv (release ?l ?x) =>
      destruct (release_compact l x Hle) as (Hi' & _ & ? & ?) end.
    split; [by rewrite Hi'|done].
  - unfold set_reserved_id in H. case_decide; [|done]. by injection H as <-.
  - apply set_label_status_cases in H as [->|[lid ->]]; done.
  - apply set_local_id_status_cases in H as [_ [->| ->]]; done.
Qed.

Lemma rtc_step_compact_inv (m m' : IdManager) :
  compact_inv m → rtc step m m' → compact_inv m'.
Proof. intros Hinv Hrtc. induction Hrtc; eauto using step_compact_inv. Qed.

(** What MemStore::init builds: the manager of [initialize({}, reserved,
    reserved + 1)], with the one lid [reserved] in the free set. *)
Lemma MemStore_init_manager (vs : VectorSpace) (opt o : VectorStoreOption)
    (r0 : Result unit) (s0 : MemStore.t) :
  reserved opt + 1 < 2 ^ 64 →
  MemStore.init vs opt (MemStore.fresh o) = Done (r0, s0) →
  ∃ m0, MemStore._id_manager s0 = Some m0
    ∧ _initialized m0 = true
    ∧ _reserved_id m0 = reserved opt ∧ _next_id m0 = reserved opt + 1
    ∧ reserved opt < ids_size m0
    ∧ _free_ids m0 = {[reserved opt]} ∧ _id_map m0 = ∅.
Proof.
  intros Hw. unfold MemStore.init, wrap64. rewrite N.mod_small by done.
  destruct (initialize [] (reserved opt) (reserved opt + 1) IdManager_default)
    as [[r1 m0]| |] eqn:Hinit; simpl; [|done..].
  intros [= _ <-]. simpl. exists m0. split; [done|].
  destruct r1 as [[]|c]; [|by apply initialize_never_fails in Hinit].
  apply initialize_done_spec in Hinit as (Hi & Hr & Hn & Hids & Hsz & Hfr & Hmp).
  specialize (Hsz ltac:(lia)).
  assert (∀ i e, _ids m0 !! i = Some e → e = le) as Hle.
  { intros i e. rewrite Hids. unfold adopted_pool, resize. simpl.
    case_decide; simpl; [|done]. case_decide; simpl; [|done].
    intros He. by apply lookup_replicate_1 in He as [-> _]. }
  destruct (lookup_lt_ids m0 (reserved opt) ltac:(lia)) as [e He].
  pose proof (Hle _ _ He) as ->.
  repeat split; try done; try lia.
  - apply set_eq. intros x. rewrite Hfr, elem_of_singleton. split.
    + intros [? _]. lia.
    + intros ->. split; [lia|]. by rewrite He.
  - apply map_empty. intros l. destruct (_id_map m0 !! l) as [v|] eqn:Hl; [|done].
    apply Hmp in Hl as (_ & Hlab & Hne).
    destruct (_ids m0 !! N.to_nat v) as [e'|] eqn:He'; [|done].
    apply Hle in He' as ->. simpl in Hlab. congruence.
Qed.

(** C4, as amended. Trailing compactness is the work of the freeing
    operations and of the first allocation, not of initialize.  On an
    initialized manager with reserved_id <= next_id, every free_local_id of
    a lid inside the pool and every free_id of a label mapped to a lid
    inside the pool ends with next_id = reserved_id or next_id - 1 outside
    the free set, and once the property holds it holds after every further
    sequence of initialize, alloc_id, free_id, free_local_id,
    set_reserved_id, set_label_status and set_local_id_status calls.  Right
    after MemStore::init with reserved < 2^64 - 1 it does not hold:
    next_id = reserved + 1 and reserved is in the free set; the first
    alloc_id then takes the lid reserved out of the free set and the
    property holds. *)
Theorem trailing_compactness :
  (∀ m, _initialized m = true → _reserved_id m ≤ _next_id m →
     (∀ m', trailing_compact m → rtc step m m' → trailing_compact m')
     ∧ (∀ lid, lid < ids_size m →
          ∃ m', free_local_id lid m = Done m' ∧ trailing_compact m')
     ∧ (∀ lbl lid, _id_map m !! lbl = Some lid → lid < ids_size m →
          ∃ m', free_id lbl m = Done m' ∧ trailing_compact m'))
  ∧ (∀ vs opt o r0 s0,
       reserved opt + 1 < 2 ^ 64 →
       MemStore.init vs opt (MemStore.fresh o) = Done (r0, s0) →
       ∃ m0, MemStore._id_manager s0 = Some m0
         ∧ _next_id m0 = reserved opt + 1
         ∧ reserved opt ∈ _free_ids m0
         ∧ ¬ trailing_compact m0
         ∧ ∀ lbl, ∃ m1, alloc_id lbl m0 = Done (Ok (reserved opt), m1)
                    ∧ trailing_compact m1).
Proof.
  split.
  - intros m Hi Hle. split; [|split].
    + intros m' Hc Hrtc.
      by destruct (rtc_step_compact_inv m m') as (_ & _ & ?).
    + intros lid Hlt. destruct (lookup_lt_ids m lid Hlt) as [e He].
      unfold free_local_id. rewrite Hi, He. simpl.
      rewrite decide_False by lia. eexists. split; [done|].
      match goal with |- trailing_compact (release ?l ?x) =>
        by destruct (release_compact l x Hle) as (_ & _ & _ & ?) end.
    + intros lbl lid Hl Hlt. unfold free_id. rewrite Hi, Hl. simpl.
      rewrite decide_False by (unfold ids_size in *; simpl; lia).
      eexists. split; [done|].
      match goal with |- trailing_compact (release ?l ?x) =>
        by destruct (release_compact l x Hle) as (_ & _ & _ & ?) end.
  - intros vs opt o r0 s0 Hw Hinit.
    destruct (MemStore_init_manager vs opt o r0 s0 Hw Hinit)
      as (m0 & Hm & Hi & Hr & Hn & Hsz & Hfr & Hmp).
    exists m0. split; [done|]. split; [done|].
    split; [rewrite Hfr; by apply elem_of_singleton|]. split.
    + unfold trailing_compact. rewrite Hn, Hr, Hfr. intros [?|Hnot]; [lia|].
      apply Hnot. apply elem_of_singleton. lia.
    + intros lbl. eexists. split.
      * apply alloc_id_reuse; [done|by rewrite Hmp| |done].
        rewrite Hfr. unfold set_begin. by rewrite elements_singleton.
      * unfold trailing_compact, allocated. simpl. right. rewrite Hn, Hfr.
        intros Hin. apply elem_of_difference in Hin as [_ Hin].
        apply Hin. apply elem_of_singleton. lia.
Qed.

(** ** The invariant of the active range *)

Lemma initialize_id_inv (map : list LabelEntity) (r n : N) (m : IdManager) :
  r ≤ n →
  initialize map r n IdManager_default = Done (Ok (), m) →
  id_inv m ∧ _reserved_id m = r.
Proof.
  intros Hle Hinit.
  apply initialize_done_spec in Hinit as (Hi & Hr & Hn & _ & _ & Hfr & Hmp).
  split; [|done]. unfold id_inv. rewrite Hr, Hn.
  split; [done|]. split; [done|]. split.
  - intros l v Hv. apply Hmp in Hv. tauto.
  - intros x Hx. apply Hfr in Hx as [? Hx]. split; [done|]. split; [done|].
    intros l Hl. apply Hmp in Hl as (_ & Hl & Hne). congruence.
Qed.

Lemma label_lookup_lt (v : list LabelEntity) (x l : N) :
  label <$> v !! N.to_nat x = Some l → x < N.of_nat (length v).
Proof.
  intros H. destruct (v !! N.to_nat x) as [e|] eqn:E; [|done].
  apply lookup_lt_Some in E. lia.
Qed.

Lemma set_slot_label_label (lid lbl : N) (v : list LabelEntity) (x : N) :
  lid < N.of_nat (length v) →
  label <$> set_slot_label lid lbl v !! N.to_nat x
  = if decide (x = lid) then Some lbl else label <$> v !! N.to_nat x.
Proof.
  intros Hlt. case_decide as Hx.
  - subst x. destruct (lookup_lt_is_Some_2 v (N.to_nat lid)) as [e He]; [lia|].
    by rewrite (set_slot_label_lookup _ _ _ e).
  - rewrite set_slot_label_lookup_ne; [done|lia].
Qed.

Lemma released_label (lid : N) (v : list LabelEntity) (x : N) :
  lid < N.of_nat (length v) →
  label <$> set_slot_status lid kNoneStatus
              (set_slot_label lid kInvalidId v) !! N.to_nat x
  = if decide (x = lid) then Some kInvalidId else label <$> v !! N.to_nat x.
Proof. intros Hlt. by rewrite set_slot_status_label, set_slot_label_label. Qed.

Lemma alloc_id_inv (lbl : N) (r : Result N) (m m' : IdManager) :
  id_inv m → alloc_id lbl m = Done (r, m') → id_inv m'.
Proof.
  intros (Hi & Hle & Hmp & Hfr) H. apply alloc_id_cases in H as [_ H].
  destruct H as [(_&_&->)|[(_&_&_&_&->)|[(lid&Hn&Hb&Hlt&_&->)|(Hn&He&Hlt&_&->)]]];
    try done.
  - (* a free lid is reused *)
    apply set_begin_Some in Hb as [Hin _].
    destruct (Hfr lid Hin) as (Hrange & _ & Hnov).
    unfold id_inv. simpl.
    split; [done|]. split; [done|]. split.
    + intros l v Hv. rewrite set_slot_label_label by done.
      destruct (decide (l = lbl)) as [->|Hne].
      * rewrite lookup_insert_eq in Hv. injection Hv as <-.
        by rewrite decide_True.
      * rewrite lookup_insert_ne in Hv by done.
        rewrite decide_False; [by apply Hmp|]. intros ->. by apply (Hnov l).
    + intros x Hx. apply elem_of_difference in Hx as [Hx Hxl].
      rewrite elem_of_singleton in Hxl.
      destruct (Hfr x Hx) as (? & ? & Hnox).
      rewrite set_slot_label_label by done. rewrite decide_False by done.
      split; [done|]. split; [done|]. intros l Hl.
      destruct (decide (l = lbl)) as [->|Hne].
      * rewrite lookup_insert_eq in Hl. congruence.
      * rewrite lookup_insert_ne in Hl by done. by apply (Hnox l).
  - (* next_id is handed out *)
    unfold id_inv. simpl.
    split; [done|]. split; [lia|]. split.
    + intros l v Hv. rewrite set_slot_label_label by done.
      destruct (decide (l = lbl)) as [->|Hne].
      * rewrite lookup_insert_eq in Hv. injection Hv as <-.
        rewrite decide_True by done. split; [lia|done].
      * rewrite lookup_insert_ne in Hv by done.
        destruct (Hmp l v Hv) as [? ?].
        rewrite decide_False by lia. split; [lia|done].
    + intros x Hx. rewrite He in Hx. by apply not_elem_of_empty in Hx.
Qed.

Lemma release_id_inv (lid lbl : N) (m : IdManager) :
  id_inv m →
  _reserved_id m ≤ lid < _next_id m →
  label <$> _ids m !! N.to_nat lid = Some lbl →
  id_inv (release lid (with_id_map (delete lbl (_id_map m)) m)).
Proof.
  intros (Hi & Hle & Hmp & Hfr) Hrange Hlab. unfold release.
  match goal with |- id_inv (shrink_next_id ?x) =>
    destruct (shrink_next_id_spec x)
      as (Hids & Hmap & Hr & Hin & _ & Hnx & Hge & Hfree & Hgap) end.
  simpl in *.
  pose proof (label_lookup_lt _ _ _ Hlab) as Hlt.
  (* the state between the insertion into the free set and the compaction *)
  assert (∀ l v, delete lbl (_id_map m) !! l = Some v →
            _reserved_id m ≤ v < _next_id m
            ∧ label <$> set_slot_status lid kNoneStatus
                  (set_slot_label lid kInvalidId (_ids m)) !! N.to_nat v
              = Some l) as Hmp2.
  { intros l v Hv. destruct (decide (l = lbl)) as [->|Hne].
    { by rewrite lookup_delete_eq in Hv. }
    rewrite lookup_delete_ne in Hv by done.
    destruct (Hmp l v Hv) as [? Hl]. split; [done|].
    rewrite released_label by done. rewrite decide_False; [done|].
    intros ->. congruence. }
  assert (∀ x, x ∈ {[lid]} ∪ _free_ids m →
            _reserved_id m ≤ x < _next_id m
            ∧ label <$> set_slot_status lid kNoneStatus
                  (set_slot_label lid kInvalidId (_ids m)) !! N.to_nat x
              = Some kInvalidId
            ∧ ∀ l, delete lbl (_id_map m) !! l ≠ Some x) as Hfr2.
  { intros x Hx. rewrite released_label by done.
    apply elem_of_union in Hx as [Hx|Hx].
    - apply elem_of_singleton in Hx as ->. rewrite decide_True by done.
      split; [done|]. split; [done|]. intros l Hl.
      destruct (decide (l = lbl)) as [->|Hne].
      { by rewrite lookup_delete_eq in Hl. }
      rewrite lookup_delete_ne in Hl by done.
      destruct (Hmp l lid Hl) as [_ ?]. congruence.
    - destruct (Hfr x Hx) as (? & ? & Hnox). split; [done|]. split.
      + case_decide; [done|done].
      + intros l Hl. destruct (decide (l = lbl)) as [->|Hne].
        { by rewrite lookup_delete_eq in Hl. }
        rewrite lookup_delete_ne in Hl by done. by apply (Hnox l). }
  unfold id_inv. rewrite Hids, Hmap, Hr, Hin.
  split; [done|]. split; [by apply Hge|]. split.
  - intros l v Hv. destruct (Hmp2 l v Hv) as [? ?]. split; [|done].
    split; [lia|].
    destruct (decide (v < _next_id (shrink_next_id
      (with_free ({[lid]} ∪ _free_ids m) (_next_id m)
         (with_ids (set_slot_status lid kNoneStatus
                      (set_slot_label lid kInvalidId (_ids m)))
            (with_id_map (delete lbl (_id_map m)) m)))))) as [?|Hnlt]; [done|].
    exfalso. assert (v ∈ {[lid]} ∪ _free_ids m) as Hv' by (apply Hgap; lia).
    destruct (Hfr2 v Hv') as (_ & _ & Hno). by apply (Hno l).
  - intros x Hx. apply Hfree in Hx as [Hx Hout].
    destruct (Hfr2 x Hx) as (? & ? & ?). split; [lia|done].
Qed.

Lemma status_id_inv (lid st : N) (m : IdManager) :
  id_inv m → id_inv (with_ids (set_slot_status lid st (_ids m)) m).
Proof.
  intros (Hi & Hle & Hmp & Hfr). unfold id_inv. simpl.
  split; [done|]. split; [done|]. split.
  - intros l v Hv. rewrite set_slot_status_label. by apply Hmp.
  - intros x Hx. rewrite set_slot_status_label. by apply Hfr.
Qed.

Lemma contract_step_id_inv (m m' : IdManager) :
  id_inv m → contract_step m m' → id_inv m' ∧ _reserved_id m' = _reserved_id m.
Proof.
  intros Hinv Hstep. pose proof Hinv as (Hi & Hle & Hmp & Hfr).
  destruct Hstep as
    [map r n st m' H|lbl r m' H|lbl m' H|lid m' Hrange H|lbl st m' H|lid st m' H].
  - unfold initialize in H. rewrite Hi in H. by injection H as _ <-.
  - split; [by eapply alloc_id_inv|].
    apply alloc_id_cases in H as [_ H].
    by destruct H as [(_&_&->)|[(_&_&_&_&->)|[(lid&_&_&_&_&->)|(_&_&_&_&->)]]].
  - apply free_id_cases in H as [_ H].
    destruct H as [(_&->)|[(lid&Hl&Hge&->)|(lid&Hl&_&->)]]; [done| |].
    + destruct (Hmp lbl lid Hl) as [_ Hlab].
      apply label_lookup_lt in Hlab. unfold ids_size in Hge. simpl in Hge. lia.
    + destruct (Hmp lbl lid Hl) as [? ?].
      split; [by apply release_id_inv|].
      match goal with |- _reserved_id (release ?l ?x) = _ =>
        by destruct (release_compact l x Hle) as (_ & ? & _) end.
  - apply free_local_id_cases in H as [_ H].
    destruct H as [(_&->)|(e&_&He&->)]; [done|].
    split; [apply release_id_inv; [done..|by rewrite He]|].
    match goal with |- _reserved_id (release ?l ?x) = _ =>
      by destruct (release_compact l x Hle) as (_ & ? & _) end.
  - apply set_label_status_cases in H as [->|[lid ->]]; [done|].
    split; [by apply status_id_inv|done].
  - apply set_local_id_status_cases in H as [_ [->| ->]]; [done|].
    split; [by apply status_id_inv|done].
Qed.

Lemma rtc_contract_step_id_inv (m m' : IdManager) :
  id_inv m → rtc contract_step m m' →
  id_inv m' ∧ _reserved_id m' = _reserved_id m.
Proof.
  intros Hinv Hrtc. induction Hrtc as [|m1 m2 m3 Hs _ IH]; [done|].
  destruct (contract_step_id_inv m1 m2 Hinv Hs) as [Hinv2 Hr2].
  destruct (IH Hinv2) as [? ?]. split; [done|congruence].
Qed.

(** C3, as amended. For a manager initialized with reserved_id <= next_id,
    after every sequence of alloc_id, free_id, set_label_status,
    set_local_id_status, repeated initialize and free_local_id(lid) with
    reserved_id <= lid < next_id, every lid in the free set satisfies
    reserved_id <= lid < next_id and its pool slot carries the sentinel. *)
Theorem free_set_domain (map : list LabelEntity) (r n : N) (m0 m : IdManager) :
  r ≤ n →
  initialize map r n IdManager_default = Done (Ok (), m0) →
  rtc contract_step m0 m →
  ∀ lid, lid ∈ _free_ids m →
    _reserved_id m = r ∧ _reserved_id m ≤ lid < _next_id m
    ∧ label <$> _ids m !! N.to_nat lid = Some kInvalidId.
Proof.
  intros Hle Hinit Hrtc lid Hlid.
  destruct (initialize_id_inv map r n m0 Hle Hinit) as [Hinv0 Hr0].
  destruct (rtc_contract_step_id_inv m0 m Hinv0 Hrtc)
    as [(_ & _ & _ & Hfr) Hr].
  destruct (Hfr lid Hlid) as (? & ? & _). split; [congruence|done].
Qed.






(** * Concrete runs *)

Lemma initialize_5_6 : initialize [] 5 6 IdManager_default = Done (Ok (), mgr_5_6).
Proof. by vm_compute. Qed.

(** A run from [mgr_5_6]: labels 100 and 101 are allocated (lids 5 and 6),
    then label 100 is freed, which leaves the hole 5 below next_id = 7. *)
Lemma run_with_hole :
  ∃ m, rtc contract_step mgr_5_6 m ∧ 5 ∈ _free_ids m ∧ _next_id m = 7
    ∧ _id_map m !! 100 = None ∧ _id_map m !! kInvalidId = None.
Proof.
  eexists. split; [|split].
  - eapply rtc_l; [eapply (cstep_alloc_id _ 100); vm_compute; reflexivity|].
    eapply rtc_l; [eapply (cstep_alloc_id _ 101); vm_compute; reflexivity|].
    eapply rtc_l; [eapply (cstep_free_id _ 100); vm_compute; reflexivity|].
    apply rtc_refl.
  - apply (bool_decide_unpack _). vm_compute. exact I.
  - split; [reflexivity|]. split; reflexivity.
Defined.

Lemma contract_step_step (m m' : IdManager) : contract_step m m' → step m m'.
Proof.
  intros [map r n st m1 H|lbl r m1 H|lbl m1 H|lid m1 _ H|lbl st m1 H|lid st m1 H].
  - by eapply step_initialize.
  - by eapply step_alloc_id.
  - by eapply step_free_id.
  - by eapply step_free_local_id.
  - by eapply step_set_label_status.
  - by eapply step_set_local_id_status.
Defined.

Lemma rtc_contract_step_step (m m' : IdManager) :
  rtc contract_step m m' → rtc step m m'.
Proof.
  intros H. induction H as [|m1 m2 m3 Hs _ IH]; [apply rtc_refl|].
  eapply rtc_l; [by apply contract_step_step|exact IH].
Defined.



Lemma trailing_compactness_witness :
  (∃ m', free_local_id 5 mgr_5_6 = Done m' ∧ trailing_compact m')
  ∧ ∃ m0 m1, MemStore._id_manager store_5_4_1024 = Some m0
      ∧ ¬ trailing_compact m0
      ∧ alloc_id 100 m0 = Done (Ok 5, m1) ∧ trailing_compact m1.
Proof.
  destruct trailing_compactness as [Hfree Hinit]. split.
  - destruct (Hfree mgr_5_6) as (_ & H & _).
    + reflexivity.
    + simpl. lia.
    + apply H. reflexivity.
  - destruct (Hinit vs64 option_5_4_1024 option_5_4_1024 (Ok ())
                store_5_4_1024) as (m0 & Hm & _ & _ & Hnc & Ha).
    + reflexivity.
    + vm_compute. reflexivity.
    + destruct (Ha 100) as (m1 & H1 & H2). by exists m0, m1.
Defined.

Lemma free_set_domain_witness :
  ∃ m, rtc contract_step mgr_5_6 m ∧ 5 ∈ _free_ids m
    ∧ _reserved_id m = 5 ∧ _reserved_id m ≤ 5 < _next_id m
    ∧ label <$> _ids m !! N.to_nat 5 = Some kInvalidId.
Proof.
  destruct run_with_hole as (m & Hrtc & Hin & _).
  exists m. split; [exact Hrtc|]. split; [exact Hin|].
  apply (free_set_domain [] 5 6 mgr_5_6 m); [lia| |exact Hrtc|exact Hin].
  vm_compute. reflexivity.
Defined.

(** ** Inputs on which the specified properties fail *)

(** free_local_id accepts every lid below the pool size: freeing lid 100 of
    the manager built by [initialize({}, 5, 6)] puts 100 into the free set,
    far above next_id (6 before the call, 5 after its compaction). *)
Lemma free_local_id_outside_active_range :
  ∃ m0 m, initialize [] 5 6 IdManager_default = Done (Ok (), m0)
    ∧ free_local_id 100 m0 = Done m
    ∧ 100 ∈ _free_ids m
    ∧ ¬ (_reserved_id m ≤ 100 < _next_id m).
Proof.
  eexists _, _. split; [vm_compute; reflexivity|].
  split; [vm_compute; reflexivity|]. split.
  - apply (bool_decide_unpack _). vm_compute. exact I.
  - vm_compute. intros [_ H]. discriminate H.
Qed.

(** The other two ways out of the active range.  set_reserved_id stores the
    entry lid -> label, so a later free_id(lid) frees the slot numbered by
    the label; and a manager initialized with reserved_id > next_id hands out
    and frees lids of the reserved range. *)
Lemma set_reserved_id_then_free_id :
  ∃ m1 m2, set_reserved_id 0 100 mgr_5_6 = Done m1
    ∧ free_id 0 m1 = Done m2
    ∧ 100 ∈ _free_ids m2
    ∧ ¬ (_reserved_id m2 ≤ 100 < _next_id m2).
Proof.
  eexists _, _. split; [vm_compute; reflexivity|].
  split; [vm_compute; reflexivity|]. split.
  - apply (bool_decide_unpack _). vm_compute. exact I.
  - vm_compute. intros [_ H]. discriminate H.
Qed.

Lemma initialize_5_3_then_free :
  ∃ m0 m1 m2, initialize [] 5 3 IdManager_default = Done (Ok (), m0)
    ∧ alloc_id 100 m0 = Done (Ok 3, m1)
    ∧ free_id 100 m1 = Done m2
    ∧ 3 ∈ _free_ids m2
    ∧ ¬ (_reserved_id m2 ≤ 3 < _next_id m2).
Proof.
  eexists _, _, _. split; [vm_compute; reflexivity|].
  split; [vm_compute; reflexivity|]. split; [vm_compute; reflexivity|]. split.
  - apply (bool_decide_unpack _). vm_compute. exact I.
  - vm_compute. intros [H _]. by apply H.
Qed.

(** Right after MemStore::init the manager has next_id = reserved + 1 and
    the slot [reserved] in the free set. *)
Lemma MemStore_init_not_trailing_compact :
  ∃ s m, MemStore.init vs64 option_5_4_1024 (MemStore.fresh option_5_4_1024)
         = Done (Ok (), s)
    ∧ MemStore._id_manager s = Some m
    ∧ _next_id m ≠ _reserved_id m
    ∧ _next_id m - 1 ∈ _free_ids m.
Proof.
  eexists _, _. split; [vm_compute; reflexivity|]. split; [reflexivity|].
  split; [discriminate|].
  apply (bool_decide_unpack _). vm_compute. exact I.
Qed.

(** C8 (defect of the code). initialize checks nothing: the header declares
    it with a turbo::Status and MemStore::init returns that status, but no
    call returns a failed one.  initialize({}, 5, 3), with
    reserved_id = 5 > next_id = 3, completes with OK and stores both
    watermarks as given, and the next alloc_id hands out lid 3, a lid of the
    reserved range [0, 5) that the class promises never to allocate. *)
Theorem initialize_accepts_reserved_above_next :
  3 < 5
  ∧ (∀ map r n m c m', initialize map r n m ≠ Done (Err c, m'))
  ∧ ∃ m0 m1, initialize [] 5 3 IdManager_default = Done (Ok (), m0)
      ∧ _initialized m0 = true ∧ _reserved_id m0 = 5 ∧ _next_id m0 = 3
      ∧ alloc_id 100 m0 = Done (Ok 3, m1)
      ∧ 3 < _reserved_id m1.
Proof.
  split; [reflexivity|]. split.
  - intros map r n m c m'. apply initialize_never_fails.
  - eexists _, _. split; [vm_compute; reflexivity|].
    repeat split; vm_compute; reflexivity.
Qed.

(** ** VectorBatch::init never stores the slot width *)

(** init writes [_data] and [_capacity] only, so the slot width of a
    default-constructed batch stays 0 and every span of [at] has length 0. *)
Lemma at_after_init_size (allocate : N → option (list Byte.byte))
    (vbs n i : N) (b : VectorBatch.t) :
  VectorBatch.init allocate vbs n VectorBatch.default = (Ok (), b) →
  VectorBatch._capacity b = n
  ∧ VectorBatch._vector_byte_size b = 0
  ∧ VectorBatch.sp_size (VectorBatch.at_ i b) = 0.
Proof.
  unfold VectorBatch.init. destruct (allocate _) as [buf|]; [|done].
  intros [= <-]. unfold VectorBatch.at_. simpl.
  by case_decide.
Qed.

(** C2 (defect of the code). After init(64, 4) on a fresh batch with a
    successful allocation, the capacity is 4 but at(0) is a span of length 0,
    not 64: it is empty although 0 < capacity. *)
Theorem at_after_init_is_empty :
  ∃ b, VectorBatch.init zero_allocate 64 4 VectorBatch.default = (Ok (), b)
    ∧ VectorBatch._capacity b = 4
    ∧ VectorBatch.at_ 0 b
      = {| VectorBatch.sp_ptr := Some 0; VectorBatch.sp_size := 0 |}
    ∧ VectorBatch.empty (VectorBatch.at_ 0 b) = true.
Proof. eexists. split; [vm_compute; reflexivity|]. by vm_compute. Qed.


(** ** set_reserved_id writes the map the wrong way round *)

Lemma set_reserved_id_map (lid lbl : N) (m m' : IdManager) :
  set_reserved_id lid lbl m = Done m' →
  lid < _reserved_id m ∧ _id_map m' = <[lid := lbl]> (_id_map m).
Proof.
  unfold set_reserved_id. case_decide; [|done]. by intros [= <-].
Qed.

(** C6 (defect of the code). set_reserved_id(0, 100) on the manager built by
    [initialize({}, 5, 6)] leaves label 100 unmapped and maps the key 0 to
    100: the entry is keyed by the lid, not by the label. *)
Theorem set_reserved_id_keyed_by_lid :
  ∃ m', set_reserved_id 0 100 mgr_5_6 = Done m'
    ∧ _id_map m' !! 100 = None
    ∧ _id_map m' !! 0 = Some 100
    ∧ local_id 100 m' = Err kNotFound.
Proof. eexists. split; [vm_compute; reflexivity|]. by vm_compute. Qed.

(** ** get_vector_by_id subscripts the batch sequence unchecked *)

Lemma get_vector_by_id_beyond_batches (lid : N) (s : MemStore.t) :
  batch_size (MemStore._option s) ≠ 0 →
  N.of_nat (length (MemStore._vector_batches s))
    ≤ lid / batch_size (MemStore._option s) →
  MemStore.get_vector_by_id lid s = Undef.
Proof.
  intros Hb Hge. unfold MemStore.get_vector_by_id.
  rewrite decide_False by done.
  by rewrite lookup_ge_None_2 by lia.
Qed.

(** C7 (defect of the code). On a freshly initialised store no batch is
    materialized; get_vector_by_id(5) subscripts the empty batch vector at
    index 1 instead of failing with OutOfRange. *)
Theorem get_vector_by_id_unchecked_subscript :
  ∃ s0,
    MemStore.init vs64 option_5_4_1024 (MemStore.fresh option_5_4_1024)
    = Done (Ok (), s0)
    ∧ MemStore._vector_batches s0 = []
    ∧ MemStore.get_vector_by_id 5 s0 = Undef.
Proof. eexists. split; [vm_compute; reflexivity|]. by vm_compute. Qed.

(** ** get_metric_operator on an unpopulated SIMD cell *)

Lemma get_metric_operator_simd_unpopulated (mt : MetricType) (dt : DataType)
    (lv : SimdLevel) (r : MetricRegistry.t) mit dit sit :
  (kUndefinedMetric < mt < kMetricTypeMax)%Z →
  (DataType_int DT_NONE < DataType_int dt < DataType_int DT_MAX)%Z →
  (SimdLevel_int SIMD_NONE ≤ SimdLevel_int lv < SimdLevel_int SIMD_MAX)%Z →
  MetricRegistry._metric_level_map r !! Z.to_nat mt = Some mit →
  MetricLevelMap.init mit = true →
  MetricLevelMap.operators mit !! Z.to_nat (DataType_int dt) = Some dit →
  DataTypeMap.init dit = true →
  DataTypeMap.operators dit !! Z.to_nat (SimdLevel_int lv) = Some sit →
  SimdLevelMap.init sit = false →
  MetricRegistry.get_metric_operator mt dt lv r = Done (Err kAlreadyExists).
Proof.
  intros Hm Hd Hs Hmit Hmi Hdit Hdi Hsit Hsi.
  unfold MetricRegistry.get_metric_operator.
  unfold kUndefinedMetric, kMetricTypeMax in *. simpl in Hd, Hs.
  rewrite decide_False by lia. rewrite Hmit, Hmi. simpl.
  rewrite decide_False by lia. rewrite Hdit, Hdi. simpl.
  rewrite decide_False by lia. by rewrite Hsit, Hsi.
Qed.

(** C9 (defect of the code). With only the scalar uint8 Jaccard operator
    registered, the in-range triple (Jaccard, uint8, AVX2) has an
    unpopulated SIMD cell, and get_metric_operator fails with AlreadyExists,
    neither NotFound nor Unavailable; the two outer axes give Unavailable. *)
Theorem get_metric_operator_already_exists :
  ∃ r, MetricRegistry.register_operator MetricRegistry.jaccard_u8 false
         MetricRegistry.empty = Done (Ok (), r)
    ∧ MetricRegistry.get_metric_operator kJaccard DT_UINT8 SIMD_AVX2 r
      = Done (Err kAlreadyExists)
    ∧ MetricRegistry.get_metric_operator kJaccard DT_FLOAT SIMD_AVX2 r
      = Done (Err kUnavailable)
    ∧ MetricRegistry.get_metric_operator 2%Z DT_UINT8 SIMD_AVX2 r
      = Done (Err kUnavailable).
Proof. eexists. split; [vm_compute; reflexivity|]. by vm_compute. Qed.

(** ** No read of the store ever succeeds *)





Section ZeroWidth.
Variable allocate : N → option (list Byte.byte).






End ZeroWidth.

(** * Further properties of the identifier manager *)

(** ** What a free leaves behind *)

Lemma release_spec (lid : N) (m : IdManager) :
  lid < ids_size m →
  let m' := release lid m in
  _id_map m' = _id_map m
  ∧ _reserved_id m' = _reserved_id m
  ∧ _initialized m' = _initialized m
  ∧ length (_ids m') = length (_ids m)
  ∧ _ids m' !! N.to_nat lid = Some le
  ∧ (∀ j, j ≠ N.to_nat lid → _ids m' !! j = _ids m !! j).
Proof.
  intros Hlt. unfold release.
  match goal with |- context [shrink_next_id ?x] =>
    destruct (shrink_next_id_spec x) as (Hids & Hmap & Hr & Hi & _) end.
  simpl in *. rewrite Hids, Hmap, Hr, Hi.
  destruct (lookup_lt_ids m lid Hlt) as [e He].
  repeat split.
  - by rewrite set_slot_status_length, set_slot_label_length.
  - unfold set_slot_status, set_slot_label.
    by rewrite list_lookup_alter_eq, list_lookup_alter_eq, He.
  - intros j Hj. unfold set_slot_status, set_slot_label.
    by rewrite !list_lookup_alter_ne.
Qed.

(** X1. free_id of a label mapped to a lid inside the pool returns, removes
    the label from the map and leaves every other entry; the slot becomes
    (kInvalidId, kNoneStatus), so its status is 0 again, and no other slot
    changes. *)
Theorem free_id_resets_slot (lbl lid : N) (m : IdManager) :
  _initialized m = true →
  _id_map m !! lbl = Some lid →
  lid < ids_size m →
  ∃ m', free_id lbl m = Done m'
    ∧ _id_map m' = delete lbl (_id_map m)
    ∧ _ids m' !! N.to_nat lid
      = Some {| label := kInvalidId; status := kNoneStatus |}
    ∧ length (_ids m') = length (_ids m)
    ∧ (∀ j, j ≠ N.to_nat lid → _ids m' !! j = _ids m !! j).
Proof.
  intros Hi Hl Hlt. unfold free_id. rewrite Hi, Hl. simpl.
  rewrite decide_False by (unfold ids_size in *; simpl; lia).
  eexists. split; [done|].
  match goal with |- context [release ?l ?x] =>
    destruct (release_spec l x) as (H1 & _ & _ & H2 & H3 & H4) end; [done|].
  by rewrite H1.
Qed.

Lemma free_local_id_slot (lid : N) (m : IdManager) :
  _initialized m = true → lid < ids_size m →
  ∃ e m', _ids m !! N.to_nat lid = Some e
    ∧ free_local_id lid m = Done m'
    ∧ _id_map m' = delete (label e) (_id_map m)
    ∧ _ids m' !! N.to_nat lid
      = Some {| label := kInvalidId; status := kNoneStatus |}
    ∧ length (_ids m') = length (_ids m)
    ∧ (∀ j, j ≠ N.to_nat lid → _ids m' !! j = _ids m !! j).
Proof.
  intros Hi Hlt. unfold free_local_id. rewrite Hi. simpl.
  rewrite decide_False by lia.
  destruct (lookup_lt_ids m lid Hlt) as [e He]. rewrite He.
  exists e. eexists. split; [done|]. split; [done|].
  match goal with |- context [release ?l ?x] =>
    destruct (release_spec l x) as (H1 & _ & _ & H2 & H3 & H4) end; [done|].
  by rewrite H1.
Qed.

(** X2. free_local_id of a lid inside the pool returns, unmaps the label the
    slot carried, resets the slot to (kInvalidId, kNoneStatus) and changes no
    other slot; a lid at or beyond the pool size changes nothing. *)
Theorem free_local_id_resets_slot (lid : N) (m : IdManager) :
  _initialized m = true →
  (ids_size m ≤ lid → free_local_id lid m = Done m)
  ∧ (lid < ids_size m →
     ∃ e m', _ids m !! N.to_nat lid = Some e
       ∧ free_local_id lid m = Done m'
       ∧ _id_map m' = delete (label e) (_id_map m)
       ∧ _ids m' !! N.to_nat lid
         = Some {| label := kInvalidId; status := kNoneStatus |}
       ∧ length (_ids m') = length (_ids m)
       ∧ (∀ j, j ≠ N.to_nat lid → _ids m' !! j = _ids m !! j)).
Proof.
  intros Hi. split.
  - intros Hge. unfold free_local_id. rewrite Hi. simpl.
    by rewrite decide_True.
  - intros Hlt. by apply free_local_id_slot.
Qed.

Lemma mgr_two_reachable : rtc contract_step mgr_5_6 mgr_two.
Proof.
  eapply rtc_l; [eapply (cstep_alloc_id _ 100 (Ok 5)); vm_compute; reflexivity|].
  eapply rtc_l; [eapply (cstep_alloc_id _ 101 (Ok 6)); vm_compute; reflexivity|].
  apply rtc_refl.
Defined.

Lemma free_id_resets_slot_witness :
  ∃ m', free_id 101 mgr_two = Done m' ∧ _id_map m' = delete 101 (_id_map mgr_two)
    ∧ _ids m' !! N.to_nat 6 = Some le.
Proof.
  destruct (free_id_resets_slot 101 6 mgr_two) as (m' & H1 & H2 & H3 & _);
    [reflexivity..|].
  by exists m'.
Defined.

Lemma free_local_id_resets_slot_witness :
  ∃ e m', _ids mgr_two !! N.to_nat 5 = Some e
    ∧ free_local_id 5 mgr_two = Done m'
    ∧ _id_map m' = delete (label e) (_id_map mgr_two).
Proof.
  destruct (free_local_id_resets_slot 5 mgr_two eq_refl) as [_ H].
  destruct H as (e & m' & H1 & H2 & H3 & _); [reflexivity|].
  by exists e, m'.
Defined.

(** ** Allocation followed by free *)

Lemma release_free_next (lid : N) (m : IdManager) :
  let m' := release lid m in
  (_next_id m' ≤ _reserved_id m ∨ _next_id m' - 1 ∉ _free_ids m')
  ∧ _next_id m' ≤ _next_id m
  ∧ (_reserved_id m ≤ _next_id m → _reserved_id m ≤ _next_id m')
  ∧ (∀ x, x ∈ _free_ids m' ↔
       (x = lid ∨ x ∈ _free_ids m) ∧ ¬ (_next_id m' ≤ x < _next_id m))
  ∧ (∀ x, _next_id m' ≤ x < _next_id m → x = lid ∨ x ∈ _free_ids m).
Proof.
  unfold release.
  match goal with |- context [shrink_next_id ?x] =>
    destruct (shrink_next_id_spec x)
      as (_ & _ & _ & _ & H1 & H2 & H3 & H4 & H5) end.
  simpl in *. split; [done|]. split; [done|]. split; [done|]. split.
  - intros x. by rewrite H4, elem_of_union, elem_of_singleton.
  - intros x Hx. apply H5 in Hx. by rewrite elem_of_union, elem_of_singleton in Hx.
Qed.

(** X3. On a manager that satisfies the active-range invariant and is
    trailing-compact, a successful alloc_id(label) followed by free_id(label)
    brings the free set, next_id and the label map back to what they were:
    a reused lid returns to the free set, a lid taken from next_id is
    compacted away again. *)
Theorem alloc_then_free_restores (lbl lid : N) (m m1 : IdManager) :
  id_inv m → trailing_compact m →
  alloc_id lbl m = Done (Ok lid, m1) →
  ∃ m2, free_id lbl m1 = Done m2
    ∧ _free_ids m2 = _free_ids m
    ∧ _next_id m2 = _next_id m
    ∧ _id_map m2 = _id_map m
    ∧ _reserved_id m2 = _reserved_id m.
Proof.
  intros (Hi & Hle & Hmp & Hfr) Hc Ha.
  apply alloc_id_cases in Ha as [_ Ha].
  assert (∃ fr nx, m1 = allocated lbl lid fr nx m ∧ _id_map m !! lbl = None
            ∧ lid < ids_size m
            ∧ ((lid ∈ _free_ids m ∧ fr = _free_ids m ∖ {[lid]} ∧ nx = _next_id m)
               ∨ (_free_ids m = ∅ ∧ fr = ∅ ∧ lid = _next_id m
                  ∧ nx = _next_id m + 1)))
    as (fr & nx & -> & Hn & Hlt & Hcase).
  { destruct Ha as [(_&?&_)|[(_&_&_&?&_)|[(l&?&Hb&?&[= <-]&->)|(?&He&?&[= ->]&->)]]];
      try done.
    - apply set_begin_Some in Hb as [? _]. eexists _, _.
      split; [done|]. split; [done|]. split; [done|]. by left.
    - eexists _, _. split; [done|]. split; [done|]. split; [done|]. right.
      by rewrite He. }
  unfold free_id. simpl. rewrite Hi, lookup_insert_eq. simpl.
  rewrite decide_False
    by (unfold ids_size in *; simpl; rewrite set_slot_label_length; lia).
  eexists. split; [done|]. rewrite delete_insert_id by done.
  match goal with |- context [release ?l ?x] =>
    destruct (release_spec l x) as (Hmap & Hr & _);
      [unfold ids_size in *; simpl; rewrite set_slot_label_length; lia|];
    destruct (release_free_next l x) as (H1 & H2 & H3 & H4 & H5)
  end.
  simpl in *. rewrite Hmap, Hr.
  match goal with |- _ ∧ ?n' = _ ∧ _ => set (nx' := n') in * end.
  destruct Hcase as [(Hin & -> & ->)|(He & -> & -> & ->)].
  - (* the lid came from the free set: compaction finds nothing to do *)
    assert (nx' = _next_id m) as Hnx.
    { destruct (decide (nx' = _next_id m)) as [?|Hne]; [done|]. exfalso.
      assert (_next_id m - 1 ∈ _free_ids m) as Hl.
      { destruct (H5 (_next_id m - 1)) as [->|Hx]; [lia|done|].
        by apply elem_of_difference in Hx as [? _]. }
      destruct Hc as [?|?]; [|done]. specialize (H3 Hle). lia. }
    split; [|done]. apply set_eq. intros x. rewrite H4, Hnx.
    rewrite elem_of_difference, elem_of_singleton. split.
    + intros [[->|[? _]] _]; done.
    + intros Hx. split; [|lia].
      destruct (decide (x = lid)); [by left|by right].
  - (* the lid was next_id: compaction takes it back *)
    assert (nx' = _next_id m) as Hnx.
    { assert (_next_id m ≤ nx') as Hge.
      { destruct (decide (_next_id m ≤ nx')) as [?|Hn']; [done|]. exfalso.
        destruct (H5 (_next_id m - 1)) as [?|Hx]; [lia|lia|].
        by apply not_elem_of_empty in Hx. }
      destruct (decide (nx' = _next_id m)) as [?|Hne]; [done|]. exfalso.
      assert (nx' = _next_id m + 1) as Hn' by lia.
      destruct H1 as [?|Hnot]; [lia|]. apply Hnot. apply H4.
      split; [left; lia|lia]. }
    split; [|done]. rewrite He. apply set_eq. intros x. rewrite H4, Hnx. split.
    + intros [[->|Hx] Hout]; [lia|by apply not_elem_of_empty in Hx].
    + intros Hx. by apply not_elem_of_empty in Hx.
Qed.

Lemma mgr_two_id_inv : id_inv mgr_two.
Proof.
  destruct (initialize_id_inv [] 5 6 mgr_5_6) as [Hinv _];
    [lia|vm_compute; reflexivity|].
  by destruct (rtc_contract_step_id_inv mgr_5_6 mgr_two Hinv mgr_two_reachable).
Defined.

Lemma alloc_then_free_restores_witness :
  ∃ m1 m2, alloc_id 102 mgr_two = Done (Ok 7, m1)
    ∧ free_id 102 m1 = Done m2
    ∧ _free_ids m2 = _free_ids mgr_two ∧ _next_id m2 = _next_id mgr_two
    ∧ _id_map m2 = _id_map mgr_two.
Proof.
  assert (∃ m1, alloc_id 102 mgr_two = Done (Ok 7, m1)) as [m1 H1]
    by (eexists; vm_compute; reflexivity).
  destruct (alloc_then_free_restores 102 7 mgr_two m1 mgr_two_id_inv)
    as (m2 & H2 & H3 & H4 & H5 & _).
  - right. apply not_elem_of_empty.
  - exact H1.
  - by exists m1, m2.
Defined.

(** X4. Under the callers' contract a successful alloc_id never hands out a
    lid of the reserved range: the lid lies in [reserved_id, next_id) of the
    new state and inside the pool, the map sends the label to it and the
    slot carries the label. *)
Theorem alloc_id_in_active_range (map : list LabelEntity) (r n : N)
    (m0 m m' : IdManager) (lbl lid : N) :
  r ≤ n →
  initialize map r n IdManager_default = Done (Ok (), m0) →
  rtc contract_step m0 m →
  alloc_id lbl m = Done (Ok lid, m') →
  r ≤ lid < _next_id m' ∧ lid < ids_size m'
  ∧ _id_map m' !! lbl = Some lid
  ∧ label <$> _ids m' !! N.to_nat lid = Some lbl.
Proof.
  intros Hle Hinit Hrtc Ha.
  destruct (initialize_id_inv map r n m0 Hle Hinit) as [Hinv0 Hr0].
  destruct (rtc_contract_step_id_inv m0 m Hinv0 Hrtc) as [Hinv Hr].
  pose proof (alloc_id_inv lbl (Ok lid) m m' Hinv Ha) as (_ & _ & Hmp' & _).
  assert (_id_map m' !! lbl = Some lid) as Hl.
  { apply alloc_id_cases in Ha as [_ Ha].
    destruct Ha as [(_&?&_)|[(_&_&_&?&_)|[(l&_&_&_&[= <-]&->)|(_&_&_&[= ->]&->)]]];
      try done; apply lookup_insert_eq. }
  assert (_reserved_id m' = r) as Hr'.
  { destruct (contract_step_id_inv m m' Hinv) as [_ ?]; [|congruence].
    by eapply cstep_alloc_id. }
  destruct (Hmp' lbl lid Hl) as [Hrange Hlab]. rewrite Hr' in Hrange.
  split; [done|]. split; [|done].
  by apply label_lookup_lt in Hlab.
Qed.

Lemma alloc_id_in_active_range_witness :
  ∃ m', alloc_id 102 mgr_two = Done (Ok 7, m')
    ∧ 5 ≤ 7 < _next_id m' ∧ _id_map m' !! 102 = Some 7.
Proof.
  assert (∃ m', alloc_id 102 mgr_two = Done (Ok 7, m')) as [m' H]
    by (eexists; vm_compute; reflexivity).
  destruct (alloc_id_in_active_range [] 5 6 mgr_5_6 mgr_two m' 102 7)
    as (H1 & _ & H2 & _);
    [lia|vm_compute; reflexivity|exact mgr_two_reachable|exact H|].
  by exists m'.
Defined.

(** ** Status accessors *)

Lemma set_label_status_mapped (lbl st lid : N) (m : IdManager) :
  _initialized m = true → _id_map m !! lbl = Some lid → lid < ids_size m →
  ∃ m', set_label_status lbl st m = Done m'
    ∧ label_status lbl m' = Done (Ok st)
    ∧ local_id_status lid m' = Done (Ok st)
    ∧ _id_map m' = _id_map m ∧ _free_ids m' = _free_ids m
    ∧ _next_id m' = _next_id m ∧ _reserved_id m' = _reserved_id m
    ∧ (∀ j, label <$> _ids m' !! j = label <$> _ids m !! j)
    ∧ (∀ j, j ≠ N.to_nat lid → _ids m' !! j = _ids m !! j).
Proof.
  intros Hi Hl Hlt. destruct (lookup_lt_ids m lid Hlt) as [e He].
  unfold set_label_status, set_local_id_status. rewrite Hl, Hi. simpl.
  rewrite decide_False by lia. eexists. split; [done|].
  unfold label_status, local_id_status, ids_size. simpl.
  rewrite Hl, Hi, set_slot_status_length. simpl.
  rewrite decide_False by (unfold ids_size in Hlt; lia).
  unfold set_slot_status at 1 2. rewrite list_lookup_alter_eq, He. simpl.
  repeat split; try done.
  - intros j. apply set_slot_status_label.
  - intros j Hj. unfold set_slot_status. by rewrite list_lookup_alter_ne.
Qed.

(** X5. set_label_status followed by label_status reads the status back for
    a label mapped to a lid inside the pool, and the write touches nothing
    but that status: map, free set, watermarks and every slot label stay.
    For a label that is not mapped, set_label_status changes nothing and
    label_status fails with ResourceExhausted. *)
Theorem set_label_status_read_back (lbl st : N) (m : IdManager) :
  _initialized m = true →
  (∀ lid, _id_map m !! lbl = Some lid → lid < ids_size m →
     ∃ m', set_label_status lbl st m = Done m'
       ∧ label_status lbl m' = Done (Ok st)
       ∧ local_id_status lid m' = Done (Ok st)
       ∧ _id_map m' = _id_map m ∧ _free_ids m' = _free_ids m
       ∧ _next_id m' = _next_id m ∧ _reserved_id m' = _reserved_id m
       ∧ (∀ j, label <$> _ids m' !! j = label <$> _ids m !! j)
       ∧ (∀ j, j ≠ N.to_nat lid → _ids m' !! j = _ids m !! j))
  ∧ (_id_map m !! lbl = None →
     set_label_status lbl st m = Done m
     ∧ label_status lbl m = Done (Err kResourceExhausted)).
Proof.
  intros Hi. split.
  - intros lid Hl Hlt. by apply set_label_status_mapped.
  - intros Hn. unfold set_label_status, label_status. by rewrite Hn.
Qed.

Lemma set_label_status_read_back_witness :
  ∃ m', set_label_status 100 kTombstone mgr_two = Done m'
    ∧ label_status 100 m' = Done (Ok kTombstone)
    ∧ _id_map m' = _id_map mgr_two.
Proof.
  destruct (set_label_status_read_back 100 kTombstone mgr_two eq_refl) as [H _].
  destruct (H 5) as (m' & H1 & H2 & _ & H3 & _); [reflexivity..|].
  by exists m'.
Defined.

(** ** Every public operation returns *)



(** ** The pool is sized once *)

Lemma step_pool_fixed (m m' : IdManager) :
  _initialized m = true → step m m' →
  _initialized m' = true ∧ length (_ids m') = length (_ids m)
  ∧ _reserved_id m' = _reserved_id m.
Proof.
  intros Hi Hstep. destruct Hstep as
    [map r n st m' H|lbl r m' H|lbl m' H|lid m' H|lid lbl m' H|lbl st m' H|lid st m' H].
  - unfold initialize in H. rewrite Hi in H. by injection H as _ <-.
  - apply alloc_id_cases in H as [_ H].
    destruct H as [(_&_&->)|[(_&_&_&_&->)|[(lid&_&_&_&_&->)|(_&_&_&_&->)]]];
      try done; simpl; by rewrite set_slot_label_length.
  - apply free_id_cases in H as [_ H].
    destruct H as [(_&->)|[(lid&_&_&->)|(lid&_&Hlt&->)]]; try done.
    match goal with |- context [release ?l ?x] =>
      destruct (release_spec l x) as (_ & ? & Hi' & ? & _) end; [done|].
    by rewrite Hi'.
  - apply free_local_id_cases in H as [_ H].
    destruct H as [(_&->)|(e&Hlt&_&->)]; try done.
    match goal with |- context [release ?l ?x] =>
      destruct (release_spec l x) as (_ & ? & Hi' & ? & _) end; [done|].
    by rewrite Hi'.
  - unfold set_reserved_id in H. case_decide; [|done]. by injection H as <-.
  - apply set_label_status_cases in H as [->|[lid ->]]; [done|].
    simpl. by rewrite set_slot_status_length.
  - apply set_local_id_status_cases in H as [_ [->| ->]]; [done|].
    simpl. by rewrite set_slot_status_length.
Qed.

(** X7. alloc_id never grows the pool, and no other call but resize and
    grow changes its size: along every sequence of initialize, alloc_id,
    free_id, free_local_id, set_reserved_id, set_label_status and
    set_local_id_status calls on an initialized manager the number of slots
    and reserved_id stay what they were, so after such calls, once next_id
    has reached the pool size and the free set is empty, every alloc_id of
    a new label fails with ResourceExhausted and changes nothing. *)
Theorem pool_size_fixed (m0 m : IdManager) :
  _initialized m0 = true → rtc step m0 m →
  ids_size m = ids_size m0 ∧ _reserved_id m = _reserved_id m0
  ∧ ∀ lbl, _id_map m !! lbl = None → _free_ids m = ∅ →
      ids_size m0 ≤ _next_id m →
      alloc_id lbl m = Done (Err kResourceExhausted, m).
Proof.
  intros Hi Hrtc.
  assert (_initialized m = true ∧ length (_ids m) = length (_ids m0)
          ∧ _reserved_id m = _reserved_id m0) as (Hi' & Hlen & Hr).
  { induction Hrtc as [|m1 m2 m3 Hs _ IH]; [done|].
    destruct (step_pool_fixed m1 m2 Hi Hs) as (Hi2 & Hl2 & Hr2).
    destruct (IH Hi2) as (? & ? & ?). split; [done|]. split; congruence. }
  unfold ids_size. rewrite Hlen. split; [done|]. split; [done|].
  intros lbl Hn He Hge. apply alloc_id_exhausted; try done.
  unfold ids_size. by rewrite Hlen.
Qed.

Lemma pool_size_fixed_witness :
  ids_size mgr_two = ids_size mgr_5_6 ∧ _reserved_id mgr_two = _reserved_id mgr_5_6.
Proof.
  destruct (pool_size_fixed mgr_5_6 mgr_two eq_refl
              (rtc_contract_step_step _ _ mgr_two_reachable)) as (H1 & H2 & _).
  by split.
Defined.

(** * The active range is split between the map and the free set *)

(** X8. Under the callers' contract the label map agrees with the pool and
    is injective: every entry label -> lid points into the active range at a
    slot that carries that label, and no two labels share a lid. *)
Theorem id_map_injective (map : list LabelEntity) (r n : N) (m0 m : IdManager) :
  r ≤ n →
  initialize map r n IdManager_default = Done (Ok (), m0) →
  rtc contract_step m0 m →
  (∀ l v, _id_map m !! l = Some v →
     r ≤ v < _next_id m ∧ label <$> _ids m !! N.to_nat v = Some l)
  ∧ (∀ l1 l2 v, _id_map m !! l1 = Some v → _id_map m !! l2 = Some v → l1 = l2).
Proof.
  intros Hle Hinit Hrtc.
  destruct (initialize_id_inv map r n m0 Hle Hinit) as [Hinv0 Hr0].
  destruct (rtc_contract_step_id_inv m0 m Hinv0 Hrtc)
    as [(_ & _ & Hmp & _) Hr].
  rewrite Hr, Hr0 in Hmp. split; [done|].
  intros l1 l2 v H1 H2. apply Hmp in H1 as [_ H1]. apply Hmp in H2 as [_ H2].
  congruence.
Qed.

Lemma id_map_injective_witness :
  (∀ l v, _id_map mgr_two !! l = Some v →
     5 ≤ v < _next_id mgr_two
     ∧ label <$> _ids mgr_two !! N.to_nat v = Some l)
  ∧ (∀ l1 l2 v, _id_map mgr_two !! l1 = Some v →
       _id_map mgr_two !! l2 = Some v → l1 = l2).
Proof.
  apply (id_map_injective [] 5 6 mgr_5_6 mgr_two);
    [lia|vm_compute; reflexivity|exact mgr_two_reachable].
Defined.

Lemma adopted_pool_lookup (map : list LabelEntity) (n : N) (i : nat) l :
  label <$> adopted_pool map n !! i = Some l →
  label <$> map !! i = Some l ∨ l = kInvalidId.
Proof.
  unfold adopted_pool, resize, ids_size. simpl.
  repeat case_decide; simpl; try (by left).
  destruct (decide (i < length map)%nat) as [Hi|Hi].
  - rewrite lookup_app_l by done. by left.
  - rewrite lookup_app_r by lia. intros Hrep. right.
    destruct (replicate _ le !! _) as [e|] eqn:E; [|done].
    apply lookup_replicate_1 in E as [-> _]. by injection Hrep.
Qed.

Lemma adopted_pool_distinct (map : list LabelEntity) (r n : N) :
  pool_distinct map r n → pool_distinct (adopted_pool map n) r n.
Proof.
  intros Hd i j l Hi Hj Hli Hlj Hl.
  apply adopted_pool_lookup in Hli as [Hli|?]; [|done].
  apply adopted_pool_lookup in Hlj as [Hlj|?]; [|done].
  by apply (Hd i j l).
Qed.

Lemma scan_distinct (r : N) (k : nat) : ∀ (i : N) (ids : list LabelEntity)
    (free : gset N) (mp : gmap N N) fr' mp',
  scan k i ids free mp = Done (fr', mp') →
  r ≤ i →
  pool_distinct ids r (i + N.of_nat k) →
  (∀ x, x ∈ free → x < i) →
  (∀ l v, mp !! l = Some v →
     r ≤ v < i ∧ label <$> ids !! N.to_nat v = Some l) →
  (∀ l v, mp !! l = Some v → mp' !! l = Some v)
  ∧ (∀ x l, i ≤ x < i + N.of_nat k →
       label <$> ids !! N.to_nat x = Some l → l ≠ kInvalidId →
       mp' !! l = Some x)
  ∧ (size mp' + size fr' = size mp + size free + k)%nat.
Proof.
  induction k as [|k IH]; intros i ids free mp fr' mp'; simpl.
  - intros [= <- <-] _ _ _ _. split; [done|]. split; [intros; lia|lia].
  - destruct (ids !! N.to_nat i) as [e|] eqn:He; [|done].
    intros Hscan Hri Hd Hfree Hmp.
    assert (pool_distinct ids r (i + 1 + N.of_nat k)) as Hd'.
    { intros a b l ? ? ? ? ?. apply (Hd a b l); try done; lia. }
    case_decide as Hl.
    + destruct (IH _ _ _ _ _ _ Hscan ltac:(lia) Hd') as (Ha & Hb & Hc).
      { intros x Hx. apply elem_of_union in Hx as [Hx|Hx].
        - apply elem_of_singleton in Hx as ->. lia.
        - specialize (Hfree x Hx). lia. }
      { intros l v Hv. destruct (Hmp l v Hv). split; [lia|done]. }
      split; [done|]. split.
      * intros x l Hx Hlab Hne. destruct (decide (x = i)) as [->|?].
        -- rewrite He in Hlab. simpl in Hlab. congruence.
        -- apply Hb; [lia|done..].
      * rewrite Hc, size_union, size_singleton; [lia|].
        intros x Hx Hx'. apply elem_of_singleton in Hx as ->.
        specialize (Hfree i Hx'). lia.
    + assert (mp !! label e = None) as Hnew.
      { destruct (mp !! label e) as [v|] eqn:Hv; [|done]. exfalso.
        destruct (Hmp _ _ Hv) as [? Hlab].
        assert (v = i); [|lia].
        apply (Hd v i (label e)); try done; try lia. by rewrite He. }
      destruct (IH _ _ _ _ _ _ Hscan ltac:(lia) Hd') as (Ha & Hb & Hc).
      { intros x Hx. specialize (Hfree x Hx). lia. }
      { intros l v Hv. destruct (decide (l = label e)) as [->|Hne].
        - rewrite lookup_insert_eq in Hv. injection Hv as <-.
          split; [lia|]. by rewrite He.
        - rewrite lookup_insert_ne in Hv by done.
          destruct (Hmp l v Hv). split; [lia|done]. }
      split; [|split].
      * intros l v Hv. apply Ha. rewrite lookup_insert_ne; [done|].
        intros <-. congruence.
      * intros x l Hx Hlab Hne. destruct (decide (x = i)) as [->|?].
        -- rewrite He in Hlab. injection Hlab as <-.
           apply Ha. apply lookup_insert_eq.
        -- apply Hb; [lia|done..].
      * rewrite Hc, map_size_insert_None by done. lia.
Qed.

Lemma initialize_scan (map : list LabelEntity) (r n : N) (m : IdManager) :
  initialize map r n IdManager_default = Done (Ok (), m) →
  scan (N.to_nat (n - r)) r (adopted_pool map n) ∅ ∅
  = Done (_free_ids m, _id_map m).
Proof.
  unfold initialize. simpl.
  set (m2 := if decide (ids_size _ < n) then _ else _).
  assert (_ids m2 = adopted_pool map n) as Hids.
  { unfold m2, adopted_pool, resize, ids_size. simpl.
    repeat case_decide; simpl in *; try done; lia. }
  assert (_next_id m2 = n ∧ _reserved_id m2 = r ∧ _free_ids m2 = ∅
          ∧ _id_map m2 = ∅) as (Hn & Hr & Hf & Hm).
  { unfold m2, resize. by repeat case_decide. }
  rewrite Hn, Hr, Hf, Hm, Hids.
  destruct (scan _ _ _ _ _) as [[fr mp]| |]; [|done..].
  simpl. by intros [= <-].
Qed.

Lemma initialize_part_inv (map : list LabelEntity) (r n : N) (m : IdManager) :
  r ≤ n → pool_distinct map r n →
  initialize map r n IdManager_default = Done (Ok (), m) →
  part_inv m ∧ _reserved_id m = r.
Proof.
  intros Hle Hd Hinit.
  destruct (initialize_id_inv map r n m Hle Hinit) as [Hinv Hr].
  pose proof (initialize_scan _ _ _ _ Hinit) as Hscan.
  apply initialize_done_spec in Hinit
    as (_ & _ & Hn & Hids & Hsz & Hfr & Hmp).
  destruct (scan_distinct r _ _ _ _ _ _ _ Hscan) as (_ & Hb & Hc); [lia| | | |].
  { intros a b l ? ? ? ? ?.
    apply (adopted_pool_distinct map r n Hd a b l); try done; lia. }
  { intros x Hx. by apply not_elem_of_empty in Hx. }
  { intros l v Hv. by rewrite lookup_empty in Hv. }
  split; [|done]. split; [done|]. rewrite Hr, Hn. split; [|split].
  - destruct (_id_map m !! kInvalidId) as [v|] eqn:Hv; [|done].
    apply Hmp in Hv as (_ & _ & ?). done.
  - intros x Hx. specialize (Hsz ltac:(lia)).
    destruct (lookup_lt_ids m x ltac:(lia)) as [e He].
    destruct (decide (label e = kInvalidId)) as [Hl|Hl].
    + left. apply Hfr. split; [done|]. by rewrite He; simpl; rewrite Hl.
    + right. exists (label e). apply Hb; [lia| |done].
      by rewrite <-Hids, He.
  - rewrite map_size_empty, size_empty in Hc. lia.
Qed.

Lemma shrink_loop_size (fuel : nat) : ∀ (reserved : N) (free : gset N)
    (next : N) (fr : gset N) (nx : N),
  shrink_loop fuel reserved free next = (fr, nx) →
  N.of_nat (size fr) + next = N.of_nat (size free) + nx.
Proof.
  induction fuel as [|fuel IH]; intros reserved free next fr nx; simpl.
  - by intros [= <- <-].
  - case_decide as Hlt; [|by intros [= <- <-]].
    case_decide as Hin; [|by intros [= <- <-]].
    intros Hrec. apply IH in Hrec.
    rewrite size_difference, size_singleton in Hrec
      by (by apply singleton_subseteq_l).
    assert (size free ≠ 0)%nat.
    { intros H0. apply size_empty_inv in H0. apply leibniz_equiv in H0.
      rewrite H0 in Hin. by apply not_elem_of_empty in Hin. }
    lia.
Qed.

Lemma release_size (lid : N) (m : IdManager) :
  N.of_nat (size (_free_ids (release lid m))) + _next_id m
  = N.of_nat (size ({[lid]} ∪ _free_ids m)) + _next_id (release lid m).
Proof.
  unfold release, shrink_next_id.
  destruct (shrink_loop _ _ _ _) as [fr nx] eqn:E. simpl in *.
  by apply shrink_loop_size in E.
Qed.

Lemma alloc_part_inv (lbl : N) (r : Result N) (m m' : IdManager) :
  part_inv m → lbl ≠ kInvalidId → alloc_id lbl m = Done (r, m') → part_inv m'.
Proof.
  intros (Hinv & Hs & Hp & Hc) Hne H.
  pose proof (alloc_id_inv lbl r m m' Hinv H) as Hinv'.
  pose proof Hinv as (_ & Hle & Hmp & Hfr).
  apply alloc_id_cases in H as [_ H].
  destruct H as [(_&_&->)|[(_&_&_&_&->)|[(lid&Hn&Hb&Hlt&_&->)|(Hn&He&Hlt&_&->)]]];
    try done.
  - apply set_begin_Some in Hb as [Hin _].
    split; [done|]. simpl. split; [by rewrite lookup_insert_ne|]. split.
    + intros x Hx. destruct (decide (x = lid)) as [->|Hxl].
      { right. exists lbl. apply lookup_insert_eq. }
      destruct (Hp x Hx) as [Hxf|[l Hl]].
      * left. apply elem_of_difference. split; [done|].
        by rewrite elem_of_singleton.
      * right. exists l. rewrite lookup_insert_ne; [done|]. congruence.
    + rewrite map_size_insert_None by done.
      rewrite size_difference, size_singleton
        by (by apply singleton_subseteq_l).
      assert (size (_free_ids m) ≠ 0)%nat.
      { intros H0. apply size_empty_inv in H0. apply leibniz_equiv in H0.
        rewrite H0 in Hin. by apply not_elem_of_empty in Hin. }
      lia.
  - split; [done|]. simpl. split; [by rewrite lookup_insert_ne|]. split.
    + intros x Hx. destruct (decide (x = _next_id m)) as [->|Hxl].
      { right. exists lbl. apply lookup_insert_eq. }
      destruct (Hp x ltac:(lia)) as [Hxf|[l Hl]]; [by left|].
      right. exists l. rewrite lookup_insert_ne; [done|]. congruence.
    + rewrite map_size_insert_None by done. lia.
Qed.

Lemma release_part_inv (lid lbl : N) (m : IdManager) :
  part_inv m →
  _reserved_id m ≤ lid < _next_id m →
  label <$> _ids m !! N.to_nat lid = Some lbl →
  part_inv (release lid (with_id_map (delete lbl (_id_map m)) m)).
Proof.
  intros (Hinv & Hs & Hp & Hc) Hrange Hlab.
  pose proof (release_id_inv lid lbl m Hinv Hrange Hlab) as Hinv'.
  pose proof Hinv as (_ & Hle & Hmp & Hfr).
  pose proof (label_lookup_lt _ _ _ Hlab) as Hlt.
  (* the slot is mapped by its own label, or free and unmapped *)
  assert ((_id_map m !! lbl = Some lid ∧ lid ∉ _free_ids m)
          ∨ (_id_map m !! lbl = None ∧ lid ∈ _free_ids m)) as Hslot.
  { destruct (Hp lid Hrange) as [Hf|[l Hl]].
    - right. split; [|done]. destruct (Hfr lid Hf) as (_ & Hsent & _).
      assert (lbl = kInvalidId) as -> by congruence. done.
    - left. destruct (Hmp l lid Hl) as [_ Hl'].
      assert (l = lbl) as -> by congruence. split; [done|].
      intros Hf. destruct (Hfr lid Hf) as (_ & _ & Hno). by apply (Hno lbl). }
  match goal with |- part_inv (release ?l ?x) =>
    destruct (release_spec l x) as (Hmap & Hr & _); [done|];
    destruct (release_free_next l x) as (_ & Hnx & _ & Hfree & _);
    pose proof (release_size l x) as Hsize
  end.
  split; [done|]. rewrite Hmap, Hr. simpl in *. split; [|split].
  - destruct (decide (lbl = kInvalidId)) as [->|?].
    + apply lookup_delete_eq.
    + by rewrite lookup_delete_ne.
  - intros x Hx. destruct (Hp x ltac:(lia)) as [Hf|[l Hl]].
    + left. apply Hfree. split; [by right|lia].
    + destruct (decide (l = lbl)) as [->|Hne].
      * left. apply Hfree. destruct Hslot as [[Hl' _]|[Hl' _]]; [|congruence].
        split; [left; congruence|lia].
      * right. exists l. by rewrite lookup_delete_ne.
  - destruct Hslot as [[Hl Hnf]|[Hl Hf]].
    + rewrite map_size_delete_Some by (by eexists).
      rewrite size_union, size_singleton in Hsize
        by (intros y Hy ?; apply elem_of_singleton in Hy as ->; done).
      assert (size (_id_map m) ≠ 0)%nat.
      { intros H0. apply map_size_empty_inv in H0. by rewrite H0 in Hl. }
      lia.
    + rewrite map_size_delete_None by done.
      replace ({[lid]} ∪ _free_ids m) with (_free_ids m) in Hsize; [lia|].
      apply set_eq. intros y. rewrite elem_of_union, elem_of_singleton.
      split; [by right|]. by intros [->|?].
Qed.

Lemma status_part_inv (lid st : N) (m : IdManager) :
  part_inv m → part_inv (with_ids (set_slot_status lid st (_ids m)) m).
Proof.
  intros (Hinv & Hs & Hp & Hc). split; [by apply status_id_inv|done].
Qed.

Lemma label_step_part_inv (m m' : IdManager) :
  part_inv m → label_step m m' →
  part_inv m' ∧ _reserved_id m' = _reserved_id m.
Proof.
  intros Hpart Hstep. pose proof Hpart as (Hinv & _).
  pose proof Hinv as (Hi & Hle & Hmp & Hfr).
  assert (contract_step m m') as Hc.
  { destruct Hstep; [by eapply cstep_initialize|by eapply cstep_alloc_id
      |by eapply cstep_free_id|by eapply cstep_free_local_id
      |by eapply cstep_set_label_status|by eapply cstep_set_local_id_status]. }
  split; [|by destruct (contract_step_id_inv m m' Hinv Hc)].
  destruct Hstep as
    [map r n st m' H|lbl r m' Hne H|lbl m' H|lid m' Hrange H|lbl st m' H|lid st m' H].
  - unfold initialize in H. rewrite Hi in H. by injection H as _ <-.
  - by eapply alloc_part_inv.
  - apply free_id_cases in H as [_ H].
    destruct H as [(_&->)|[(lid&Hl&Hge&->)|(lid&Hl&_&->)]]; [done| |].
    + destruct (Hmp lbl lid Hl) as [_ Hlab].
      apply label_lookup_lt in Hlab. unfold ids_size in Hge. lia.
    + destruct (Hmp lbl lid Hl) as [? ?]. by apply release_part_inv.
  - apply free_local_id_cases in H as [_ H].
    destruct H as [(_&->)|(e&_&He&->)]; [done|].
    apply release_part_inv; [done..|by rewrite He].
  - apply set_label_status_cases in H as [->|[lid ->]]; [done|].
    by apply status_part_inv.
  - apply set_local_id_status_cases in H as [_ [->| ->]]; [done|].
    by apply status_part_inv.
Qed.

Lemma rtc_label_step_part_inv (m m' : IdManager) :
  part_inv m → rtc label_step m m' →
  part_inv m' ∧ _reserved_id m' = _reserved_id m.
Proof.
  intros Hinv Hrtc. induction Hrtc as [|m1 m2 m3 Hs _ IH]; [done|].
  destruct (label_step_part_inv m1 m2 Hinv Hs) as [Hinv2 Hr2].
  destruct (IH Hinv2) as [? ?]. split; [done|congruence].
Qed.

(** X9. For a manager initialized with reserved_id <= next_id over a pool
    whose active range has no label twice, and used inside the contract
    with labels other than the sentinel, every lid of the active range is
    in exactly one state: free (in the free set, slot label kInvalidId,
    mapped by no label) or in use (slot label l other than kInvalidId,
    l mapped to the lid, not in the free set). *)
Theorem active_range_partition (map : list LabelEntity) (r n : N)
    (m0 m : IdManager) (x : N) :
  r ≤ n → pool_distinct map r n →
  initialize map r n IdManager_default = Done (Ok (), m0) →
  rtc label_step m0 m →
  _reserved_id m ≤ x < _next_id m →
  (x ∈ _free_ids m
   ∧ label <$> _ids m !! N.to_nat x = Some kInvalidId
   ∧ ∀ l, _id_map m !! l ≠ Some x)
  ∨ ((x ∉ _free_ids m)
     ∧ (∃ l, l ≠ kInvalidId ∧ _id_map m !! l = Some x
          ∧ label <$> _ids m !! N.to_nat x = Some l)).
Proof.
  intros Hle Hd Hinit Hrtc Hx.
  destruct (initialize_part_inv map r n m0 Hle Hd Hinit) as [Hinv0 _].
  destruct (rtc_label_step_part_inv m0 m Hinv0 Hrtc)
    as [((_ & _ & Hmp & Hfr) & Hs & Hp & _) _].
  destruct (Hp x Hx) as [Hf|[l Hl]].
  - left. split; [done|]. by destruct (Hfr x Hf) as (_ & ? & ?).
  - right. split.
    + intros Hf. destruct (Hfr x Hf) as (_ & _ & Hno). by apply (Hno l).
    + exists l. destruct (Hmp l x Hl) as [_ ?].
      split; [congruence|done].
Qed.

(** X10. Under the same conditions the number of mapped labels and the
    number of free lids add up to the length of the active range:
    |label map| + |free set| = next_id - reserved_id. *)
Theorem active_range_count (map : list LabelEntity) (r n : N)
    (m0 m : IdManager) :
  r ≤ n → pool_distinct map r n →
  initialize map r n IdManager_default = Done (Ok (), m0) →
  rtc label_step m0 m →
  N.of_nat (size (_id_map m)) + N.of_nat (size (_free_ids m))
  = _next_id m - _reserved_id m.
Proof.
  intros Hle Hd Hinit Hrtc.
  destruct (initialize_part_inv map r n m0 Hle Hd Hinit) as [Hinv0 _].
  destruct (rtc_label_step_part_inv m0 m Hinv0 Hrtc)
    as [(_ & _ & _ & Hc) _].
  lia.
Qed.

Lemma nil_pool_distinct (r n : N) : pool_distinct [] r n.
Proof. intros i j l _ _ H. by rewrite lookup_nil in H. Defined.

Lemma mgr_two_label_reachable : rtc label_step mgr_5_6 mgr_two.
Proof.
  eapply rtc_l;
    [eapply (lstep_alloc_id _ 100 (Ok 5)); [done|vm_compute; reflexivity]|].
  eapply rtc_l;
    [eapply (lstep_alloc_id _ 101 (Ok 6)); [done|vm_compute; reflexivity]|].
  apply rtc_refl.
Defined.

Lemma active_range_partition_witness :
  (6 ∉ _free_ids mgr_two)
  ∧ (∃ l, l ≠ kInvalidId ∧ _id_map mgr_two !! l = Some 6
       ∧ label <$> _ids mgr_two !! N.to_nat 6 = Some l).
Proof.
  destruct (active_range_partition [] 5 6 mgr_5_6 mgr_two 6)
    as [(Hf & _)|H];
    [lia|apply nil_pool_distinct|vm_compute; reflexivity
    |exact mgr_two_label_reachable|simpl; lia| |exact H].
  by apply not_elem_of_empty in Hf.
Defined.

Lemma active_range_count_witness :
  N.of_nat (size (_id_map mgr_two)) + N.of_nat (size (_free_ids mgr_two))
  = _next_id mgr_two - _reserved_id mgr_two.
Proof.
  apply (active_range_count [] 5 6 mgr_5_6 mgr_two);
    [lia|apply nil_pool_distinct|vm_compute; reflexivity
    |exact mgr_two_label_reachable].
Defined.

(** * Further properties of the store *)

(** ** Tombstone listings *)

Lemma tombstone_loops_spec (k : nat) : ∀ (i : N) (ids : list LabelEntity),
  (0 < k → N.to_nat i + k ≤ length ids)%nat →
  ∃ lids labels,
    (∀ acc, MemStore.collect_tombstone_lids k i ids acc = Done (acc ++ lids))
    ∧ (∀ acc, MemStore.collect_tombstone_labels k i ids acc
              = Done (acc ++ labels))
    ∧ (∀ n, MemStore.count_tombstones k i ids n
            = Done (n + N.of_nat (length lids)))
    ∧ Forall2 (λ x l, label <$> ids !! N.to_nat x = Some l) lids labels
    ∧ (∀ x, x ∈ lids ↔
         i ≤ x < i + N.of_nat k
         ∧ status <$> ids !! N.to_nat x = Some kTombstone).
Proof.
  induction k as [|k IH]; intros i ids Hlen; simpl.
  - exists [], []. split; [|split; [|split; [|split]]].
    + intros acc. by rewrite app_nil_r.
    + intros acc. by rewrite app_nil_r.
    + intros n. simpl. by rewrite N.add_0_r.
    + constructor.
    + intros x. split; [intros Hx; by apply elem_of_nil in Hx|lia].
  - specialize (Hlen ltac:(lia)).
    destruct (lookup_lt_is_Some_2 ids (N.to_nat i)) as [e He]; [lia|].
    rewrite He.
    destruct (IH (i + 1) ids ltac:(lia)) as (lids & labels & H1 & H2 & H3 & H4 & H5).
    case_decide as Hst.
    + exists (i :: lids), (label e :: labels). split; [|split; [|split; [|split]]].
      * intros acc. by rewrite H1, <-app_assoc.
      * intros acc. by rewrite H2, <-app_assoc.
      * intros n. rewrite H3. f_equal. simpl. lia.
      * constructor; [by rewrite He|done].
      * intros x. rewrite elem_of_cons, H5. split.
        -- intros [->|[? ?]].
           ++ split; [lia|]. by rewrite He; simpl; rewrite Hst.
           ++ split; [lia|done].
        -- intros [? ?]. destruct (decide (x = i)); [by left|right].
           split; [lia|done].
    + exists lids, labels. split; [done|]. split; [done|]. split; [done|].
      split; [done|]. intros x. rewrite H5. split.
      * intros [? ?]. split; [lia|done].
      * intros [? Hx]. destruct (decide (x = i)) as [->|?].
        -- rewrite He in Hx. simpl in Hx. congruence.
        -- split; [lia|done].
Qed.

Lemma tombstone_lists (s : MemStore.t) (m : IdManager) :
  MemStore._id_manager s = Some m →
  ∃ lids labels,
    MemStore.tombstone_local_ids s = Done lids
    ∧ MemStore.tombstone_labels s = Done labels
    ∧ Forall2 (λ x l, label <$> _ids m !! N.to_nat x = Some l) lids labels
    ∧ (∀ x, x ∈ lids ↔
         _reserved_id m ≤ x < MemStore.tombstone_end m
         ∧ status <$> _ids m !! N.to_nat x = Some kTombstone).
Proof.
  intros Hm. unfold MemStore.tombstone_local_ids, MemStore.tombstone_labels.
  rewrite Hm.
  destruct (tombstone_loops_spec
              (N.to_nat (MemStore.tombstone_end m - _reserved_id m))
              (_reserved_id m) (_ids m))
    as (lids & labels & H1 & H2 & _ & H4 & H5).
  { unfold MemStore.tombstone_end, ids_size. lia. }
  exists lids, labels. rewrite H1, H2. simpl.
  split; [done|]. split; [done|]. split; [done|].
  intros x. rewrite H5. unfold MemStore.tombstone_end. split.
  - intros [? ?]. split; [lia|done].
  - intros [? ?]. split; [lia|done].
Qed.

(** X11. The three tombstone listings of a store always return and agree:
    tombstone_local_ids lists exactly the lids x with
    reserved_id <= x < min(pool size, next_id) whose status equals
    kTombstone, tombstone_labels lists the labels of those slots in the same
    order, and tombstones is the length of the list. *)
Theorem tombstone_listings_agree (s : MemStore.t) (m : IdManager) :
  MemStore._id_manager s = Some m →
  ∃ lids labels,
    MemStore.tombstone_local_ids s = Done lids
    ∧ MemStore.tombstone_labels s = Done labels
    ∧ MemStore.tombstones s = Done (N.of_nat (length lids))
    ∧ Forall2 (λ x l, label <$> _ids m !! N.to_nat x = Some l) lids labels
    ∧ (∀ x, x ∈ lids ↔
         _reserved_id m ≤ x < MemStore.tombstone_end m
         ∧ status <$> _ids m !! N.to_nat x = Some kTombstone).
Proof.
  intros Hm.
  unfold MemStore.tombstone_local_ids, MemStore.tombstone_labels,
    MemStore.tombstones. rewrite Hm.
  destruct (tombstone_loops_spec
              (N.to_nat (MemStore.tombstone_end m - _reserved_id m))
              (_reserved_id m) (_ids m))
    as (lids & labels & H1 & H2 & H3 & H4 & H5).
  { unfold MemStore.tombstone_end, ids_size. lia. }
  exists lids, labels. rewrite H1, H2, H3. simpl.
  split; [done|]. split; [done|]. split; [done|]. split; [done|].
  intros x. rewrite H5. unfold MemStore.tombstone_end. split.
  - intros [? ?]. split; [lia|done].
  - intros [? ?]. split; [lia|done].
Qed.

Lemma tombstone_listings_agree_witness :
  ∃ lids labels,
    MemStore.tombstone_local_ids store_two = Done lids
    ∧ MemStore.tombstone_labels store_two = Done labels
    ∧ MemStore.tombstones store_two = Done (N.of_nat (length lids)).
Proof.
  destruct (tombstone_listings_agree store_two mgr_two eq_refl)
    as (lids & labels & H1 & H2 & H3 & _).
  by exists lids, labels.
Defined.

(** X12. Tombstoning is logical: on a store whose manager satisfies the
    active-range invariant, tombstone_vector_by_label of a mapped label
    stores the snapshot id, leaves the label map and the batches as they
    were, and from then on tombstone_local_ids lists the lid and
    tombstone_labels lists the label. *)
Theorem tombstone_by_label_listed (snapshot_id lbl lid : N)
    (s : MemStore.t) (m : IdManager) :
  MemStore._id_manager s = Some m →
  id_inv m →
  _id_map m !! lbl = Some lid →
  ∃ s' m' lids labels,
    MemStore.tombstone_vector_by_label snapshot_id lbl s = Done s'
    ∧ MemStore._id_manager s' = Some m'
    ∧ MemStore._snapshot_id s' = snapshot_id
    ∧ MemStore._vector_batches s' = MemStore._vector_batches s
    ∧ _id_map m' = _id_map m
    ∧ MemStore.tombstone_local_ids s' = Done lids ∧ lid ∈ lids
    ∧ MemStore.tombstone_labels s' = Done labels ∧ lbl ∈ labels.
Proof.
  intros Hm (Hi & Hle & Hmp & Hfr) Hl.
  destruct (Hmp lbl lid Hl) as [Hrange Hlab].
  pose proof (label_lookup_lt _ _ _ Hlab) as Hlt.
  destruct (set_label_status_mapped lbl kTombstone lid m Hi Hl Hlt)
    as (m' & Hs & _ & Hst & Hmap & _ & Hnx & Hr & Hlabs & _).
  unfold MemStore.tombstone_vector_by_label. rewrite Hm, Hs. simpl.
  eexists _, m'.
  match goal with |- ∃ _ _, Done ?x = _ ∧ _ =>
    destruct (tombstone_lists x m' eq_refl)
      as (lids & labels & H1 & H2 & H4 & H5) end.
  exists lids, labels.
  assert (status <$> _ids m' !! N.to_nat lid = Some kTombstone) as Hst'.
  { unfold local_id_status in Hst.
    destruct (_initialized m'); [|done]. simpl in Hst.
    case_decide; [done|].
    destruct (_ids m' !! N.to_nat lid) as [e'|]; [|done].
    injection Hst as Hst. simpl. by rewrite Hst. }
  assert (lid ∈ lids) as Hin.
  { apply H5. split; [|done]. unfold MemStore.tombstone_end, ids_size.
    rewrite Hr, Hnx.
    assert (length (_ids m') = length (_ids m)) as Hlen.
    { apply Nat.le_antisymm.
      - destruct (decide (length (_ids m') ≤ length (_ids m))%nat); [done|].
        exfalso. pose proof (Hlabs (length (_ids m))) as Hx.
        rewrite (lookup_ge_None_2 (_ids m)) in Hx by done.
        destruct (lookup_lt_is_Some_2 (_ids m') (length (_ids m))) as [? Hy];
          [lia|]. by rewrite Hy in Hx.
      - destruct (decide (length (_ids m) ≤ length (_ids m'))%nat); [done|].
        exfalso. pose proof (Hlabs (length (_ids m'))) as Hx.
        rewrite (lookup_ge_None_2 (_ids m')) in Hx by done.
        destruct (lookup_lt_is_Some_2 (_ids m) (length (_ids m'))) as [? Hy];
          [lia|]. by rewrite Hy in Hx. }
    lia. }
  repeat split; try done.
  apply list_elem_of_lookup in Hin as [k Hk].
  destruct (Forall2_lookup_l _ _ _ _ _ H4 Hk) as (l' & Hl' & Hlab').
  rewrite Hlabs, Hlab in Hlab'. injection Hlab' as <-.
  apply list_elem_of_lookup. by exists k.
Qed.

Lemma tombstone_by_label_listed_witness :
  ∃ s' lids labels,
    MemStore.tombstone_vector_by_label 200 100 store_two = Done s'
    ∧ MemStore.tombstone_local_ids s' = Done lids ∧ 5 ∈ lids
    ∧ MemStore.tombstone_labels s' = Done labels ∧ 100 ∈ labels.
Proof.
  destruct (tombstone_by_label_listed 200 100 5 store_two mgr_two eq_refl
              mgr_two_id_inv eq_refl)
    as (s' & m' & lids & labels & H1 & _ & _ & _ & _ & H2 & H3 & H4 & H5).
  by exists s', lids, labels.
Defined.

(** X13. A removed lid is never listed as a tombstone: after
    remove_vector_by_id(lid) on a store with an initialized manager the lid
    is not in tombstone_local_ids, whatever its status was. *)
Theorem removed_lid_not_tombstone (snapshot_id lid : N)
    (s : MemStore.t) (m : IdManager) :
  MemStore._id_manager s = Some m →
  _initialized m = true →
  ∃ s' lids,
    MemStore.remove_vector_by_id snapshot_id lid s = Done s'
    ∧ MemStore._snapshot_id s' = snapshot_id
    ∧ MemStore.tombstone_local_ids s' = Done lids
    ∧ lid ∉ lids.
Proof.
  intros Hm Hi. unfold MemStore.remove_vector_by_id. rewrite Hm.
  destruct (decide (ids_size m ≤ lid)) as [Hd|Hd].
  - unfold free_local_id. rewrite Hi. simpl. rewrite decide_True by done.
    simpl. eexists.
    match goal with |- ∃ _, Done ?x = _ ∧ _ =>
      destruct (tombstone_lists x m eq_refl)
        as (lids & labels & H1 & _ & _ & H5) end.
    exists lids. repeat split; try done.
    intros Hin. apply H5 in Hin as [Hin _].
    unfold MemStore.tombstone_end in Hin. lia.
  - destruct (free_local_id_slot lid m Hi ltac:(lia))
      as (e & m' & _ & -> & _ & Hslot & _).
    simpl. eexists.
    match goal with |- ∃ _, Done ?x = _ ∧ _ =>
      destruct (tombstone_lists x m' eq_refl)
        as (lids & labels & H1 & _ & _ & H5) end.
    exists lids. repeat split; try done.
    intros Hin. apply H5 in Hin as [_ Hin]. rewrite Hslot in Hin. done.
Qed.

Lemma removed_lid_not_tombstone_witness :
  ∃ s' lids, MemStore.remove_vector_by_id 300 5 store_two = Done s'
    ∧ MemStore.tombstone_local_ids s' = Done lids ∧ 5 ∉ lids.
Proof.
  destruct (removed_lid_not_tombstone 300 5 store_two mgr_two eq_refl eq_refl)
    as (s' & lids & H1 & _ & H2 & H3).
  by exists s', lids.
Defined.

(** ** ensure_space and add_vector *)

Section StoreGrowth.
Variable allocate : N → option (list Byte.byte).

(** X14. ensure_space fails with OutOfRange, changing nothing, when
    lid >= max_elements.  Otherwise, on a store that holds no batch yet,
    with a positive batch_size and an allocator that does not fail: for
    lid < batch_size it pushes one batch of capacity batch_size and returns
    a span into it, but the buffer of that batch has already been freed by
    the destructor of the loop-local batch; for lid >= batch_size it is
    undefined behaviour, the second push_back moves the vector and frees the
    first buffer again. *)
Theorem ensure_space_frees_its_batches (lid : N) (s : MemStore.t)
    (vs : VectorSpace) :
  (max_elements (MemStore._option s) ≤ lid →
   MemStore.ensure_space allocate lid s = Done (Err kOutOfRange, s))
  ∧ (lid < max_elements (MemStore._option s) →
     batch_size (MemStore._option s) ≠ 0 →
     MemStore._vector_space s = Some vs →
     MemStore._vector_batches s = [] →
     (∀ n, is_Some (allocate n)) →
     (lid < batch_size (MemStore._option s) →
      ∃ b, MemStore.ensure_space allocate lid s
           = Done (Ok (0, VectorBatch.at_ lid b), MemStore.with_batches [b] s)
        ∧ VectorBatch._capacity b = batch_size (MemStore._option s)
        ∧ VectorBatch._vector_byte_size b = 0
        ∧ VectorBatch._data b = Some VectorBatch.Freed)
     ∧ (batch_size (MemStore._option s) ≤ lid →
        MemStore.ensure_space allocate lid s = Undef)).
Proof.
  unfold MemStore.ensure_space. split.
  - intros Hge. by rewrite decide_True.
  - intros Hlt Hbs Hvs Hnil Hal.
    rewrite decide_False by lia. rewrite decide_False by done.
    rewrite Hvs, Hnil. simpl length.
    set (bsz := batch_size (MemStore._option s)) in *.
    destruct (Hal (wrap64 (vector_byte_size vs * bsz))) as [buf Hbuf].
    split.
    + intros Hin. rewrite N.div_small, N.mod_small by done.
      rewrite decide_False by (by vm_compute). simpl.
      unfold VectorBatch.init. rewrite Hbuf. simpl.
      eexists. split; [reflexivity|]. done.
    + intros Hout.
      assert (1 ≤ lid / bsz) as Hbi
        by (apply N.div_le_lower_bound; [done|lia]).
      destruct (N.to_nat (lid / bsz)) as [|q] eqn:Hq; [lia|].
      case_decide as Hd; [done|]. simpl in Hd.
      destruct (N.to_nat (wrap64 (lid / bsz + 1) - N.of_nat 0))
        as [|[|k]] eqn:Hk; [simpl in Hk; lia| |];
        simpl; unfold VectorBatch.init; rewrite Hbuf; simpl; done.
Qed.

(** X16. Adding a label that is already mapped fails with AlreadyExists and
    leaves the whole store as it was: manager, batches and snapshot id. *)
Theorem add_vector_duplicate (snapshot_id lbl : N) (v : list Byte.byte)
    (s : MemStore.t) (m : IdManager) :
  MemStore._id_manager s = Some m →
  _initialized m = true →
  is_Some (_id_map m !! lbl) →
  MemStore.add_vector allocate snapshot_id lbl v s
  = Done (Err kAlreadyExists, s).
Proof.
  intros Hm Hi Hl. unfold MemStore.add_vector.
  rewrite Hm, (alloc_id_exists lbl m Hi Hl). simpl.
  destruct s. simpl in *. by subst.
Qed.

(** X17. An add that is refused because the allocated lid is at or beyond
    max_elements still keeps the label: alloc_id has already mapped it, so
    the call fails with OutOfRange while the label map holds label -> lid,
    and adding the same label again fails with AlreadyExists. *)
Theorem add_vector_out_of_range_keeps_label (snapshot_id lbl lid : N)
    (v : list Byte.byte) (s : MemStore.t) (m m' : IdManager) :
  MemStore._id_manager s = Some m →
  alloc_id lbl m = Done (Ok lid, m') →
  max_elements (MemStore._option s) ≤ lid →
  let s' := MemStore.with_id_manager m' s in
  MemStore.add_vector allocate snapshot_id lbl v s = Done (Err kOutOfRange, s')
  ∧ _id_map m' !! lbl = Some lid
  ∧ MemStore._snapshot_id s' = MemStore._snapshot_id s
  ∧ MemStore.add_vector allocate snapshot_id lbl v s'
    = Done (Err kAlreadyExists, s').
Proof.
  intros Hm Ha Hge s'.
  assert (_id_map m' !! lbl = Some lid ∧ _initialized m' = true) as [Hl Hi'].
  { apply alloc_id_cases in Ha as [Hi Ha].
    destruct Ha as [(_&?&_)|[(_&_&_&?&_)|[(l&_&_&_&[= <-]&->)|(_&_&_&[= ->]&->)]]];
      try done; (split; [apply lookup_insert_eq|done]). }
  split; [|split; [done|split; [done|]]].
  - unfold MemStore.add_vector. rewrite Hm, Ha. simpl.
    unfold MemStore.ensure_space. simpl. by rewrite decide_True.
  - unfold MemStore.add_vector. simpl.
    rewrite (alloc_id_exists lbl m' Hi') by (by eexists). simpl.
    unfold MemStore.with_id_manager. simpl. done.
Qed.

End StoreGrowth.

Lemma ensure_space_frees_its_batches_witness :
  (∃ b, MemStore.ensure_space zero_allocate 3 store_5_4_1024
        = Done (Ok (0, VectorBatch.at_ 3 b),
                MemStore.with_batches [b] store_5_4_1024)
     ∧ VectorBatch._data b = Some VectorBatch.Freed)
  ∧ MemStore.ensure_space zero_allocate 5 store_5_4_1024 = Undef.
Proof.
  destruct (ensure_space_frees_its_batches zero_allocate 3 store_5_4_1024 vs64)
    as [_ H3].
  destruct (ensure_space_frees_its_batches zero_allocate 5 store_5_4_1024 vs64)
    as [_ H5].
  destruct H3 as [H3 _]; [reflexivity|discriminate|reflexivity|reflexivity
                         |intros n; by eexists|].
  destruct H5 as [_ H5]; [reflexivity|discriminate|reflexivity|reflexivity
                         |intros n; by eexists|].
  split.
  - destruct H3 as (b & H & _ & _ & Hf); [reflexivity|]. by exists b.
  - apply H5. discriminate.
Defined.

Lemma add_vector_duplicate_witness :
  MemStore.add_vector zero_allocate 102 100 vec64 store_two
  = Done (Err kAlreadyExists, store_two).
Proof.
  apply (add_vector_duplicate zero_allocate 102 100 vec64 store_two mgr_two);
    [reflexivity|reflexivity|by eexists].
Defined.

Lemma add_vector_out_of_range_keeps_label_witness :
  ∃ m', MemStore.add_vector zero_allocate 100 7 vec64 store_5_4_5
        = Done (Err kOutOfRange, MemStore.with_id_manager m' store_5_4_5)
    ∧ _id_map m' !! 7 = Some 5.
Proof.
  assert (∃ m', alloc_id 7 mgr_5_6 = Done (Ok 5, m')) as [m' H]
    by (eexists; vm_compute; reflexivity).
  destruct (add_vector_out_of_range_keeps_label zero_allocate 100 7 5 vec64
              store_5_4_5 mgr_5_6 m' eq_refl H) as (H1 & H2 & _).
  - simpl. lia.
  - by exists m'.
Defined.

(** * Further properties of the operator registry *)

Lemma get_metric_operator_Ok (mt : MetricType) (dt : DataType) (lv : SimdLevel)
    (r : MetricRegistry.t) (e : OperatorEntity) :
  MetricRegistry.get_metric_operator mt dt lv r = Done (Ok e) ↔
  in_range mt dt lv
  ∧ ∃ mit dit sit,
      MetricRegistry._metric_level_map r !! Z.to_nat mt = Some mit
      ∧ MetricLevelMap.init mit = true
      ∧ MetricLevelMap.operators mit !! Z.to_nat (DataType_int dt) = Some dit
      ∧ DataTypeMap.init dit = true
      ∧ DataTypeMap.operators dit !! Z.to_nat (SimdLevel_int lv) = Some sit
      ∧ SimdLevelMap.init sit = true
      ∧ SimdLevelMap.operators sit !! Z.to_nat (SimdLevel_int lv) = Some e.
Proof.
  unfold MetricRegistry.get_metric_operator, in_range.
  unfold kUndefinedMetric, kMetricTypeMax. simpl. split.
  - case_decide as Hm; [done|].
    destruct (MetricRegistry._metric_level_map r !! _) as [mit|] eqn:Hmit;
      [|done].
    destruct (MetricLevelMap.init mit) eqn:Hmi; [|done]. simpl.
    case_decide as Hd; [done|].
    destruct (MetricLevelMap.operators mit !! _) as [dit|] eqn:Hdit; [|done].
    destruct (DataTypeMap.init dit) eqn:Hdi; [|done]. simpl.
    case_decide as Hs; [done|].
    destruct (DataTypeMap.operators dit !! _) as [sit|] eqn:Hsit; [|done].
    destruct (SimdLevelMap.init sit) eqn:Hsi; [|done]. simpl.
    destruct (SimdLevelMap.operators sit !! _) as [op|] eqn:Hop; [|done].
    intros [= <-]. split; [lia|]. by exists mit, dit, sit.
  - intros [(Hm & Hd & Hs) (mit & dit & sit & Hmit & Hmi & Hdit & Hdi & Hsit & Hsi & Hop)].
    rewrite decide_False by lia. rewrite Hmit, Hmi. simpl.
    rewrite decide_False by lia. rewrite Hdit, Hdi. simpl.
    rewrite decide_False by lia. by rewrite Hsit, Hsi, Hop.
Qed.

Lemma registry_ok_paths (r : MetricRegistry.t) (mt : MetricType)
    (dt : DataType) (lv : SimdLevel) :
  registry_ok r → in_range mt dt lv →
  ∃ mit dit sit,
    MetricRegistry._metric_level_map r !! Z.to_nat mt = Some mit
    ∧ MetricLevelMap.operators mit !! Z.to_nat (DataType_int dt) = Some dit
    ∧ DataTypeMap.operators dit !! Z.to_nat (SimdLevel_int lv) = Some sit
    ∧ mit_ok mit ∧ dit_ok dit ∧ sit_ok sit.
Proof.
  intros [Hlen Hok] (Hm & Hd & Hs).
  unfold kUndefinedMetric, kMetricTypeMax in *. simpl in *.
  destruct (lookup_lt_is_Some_2 (MetricRegistry._metric_level_map r)
              (Z.to_nat mt)) as [mit Hmit]; [lia|].
  pose proof (Forall_lookup_1 _ _ _ _ Hok Hmit) as Hmok.
  pose proof Hmok as (Hl1 & Hdok & _).
  destruct (lookup_lt_is_Some_2 (MetricLevelMap.operators mit)
              (Z.to_nat (DataType_int dt))) as [dit Hdit];
    [unfold kMetricTypeMax in Hl1; lia|].
  pose proof (Forall_lookup_1 _ _ _ _ Hdok Hdit) as Hdok'.
  pose proof Hdok' as (Hl2 & Hsok & _).
  destruct (lookup_lt_is_Some_2 (DataTypeMap.operators dit)
              (Z.to_nat (SimdLevel_int lv))) as [sit Hsit];
    [simpl in Hl2; lia|].
  pose proof (Forall_lookup_1 _ _ _ _ Hsok Hsit) as Hsok'.
  by exists mit, dit, sit.
Qed.

(** The registry after [op] has been written into the cell reached through
    [mit], [dit] and [sit]. *)
Lemma register_operator_written (op : OperatorEntity) (replace : bool)
    (r : MetricRegistry.t) mit dit sit :
  MetricRegistry._finish_build r = false →
  in_range (metric op) (data_type op) (simd_level op) →
  MetricRegistry._metric_level_map r !! Z.to_nat (metric op) = Some mit →
  MetricLevelMap.operators mit !! Z.to_nat (DataType_int (data_type op))
  = Some dit →
  DataTypeMap.operators dit !! Z.to_nat (SimdLevel_int (simd_level op))
  = Some sit →
  sit_ok sit →
  SimdLevelMap.init sit && negb replace = false →
  MetricRegistry.register_operator op replace r
  = Done (Ok (),
      MetricRegistry.with_map
        (<[Z.to_nat (metric op) :=
             {| MetricLevelMap.init := true;
                MetricLevelMap.operators :=
                  <[Z.to_nat (DataType_int (data_type op)) :=
                      {| DataTypeMap.init := true;
                         DataTypeMap.operators :=
                           <[Z.to_nat (SimdLevel_int (simd_level op)) :=
                               {| SimdLevelMap.init := true;
                                  SimdLevelMap.operators :=
                                    <[Z.to_nat (SimdLevel_int (simd_level op))
                                      := op]> (SimdLevelMap.operators sit) |}]>
                             (DataTypeMap.operators dit) |}]>
                    (MetricLevelMap.operators mit) |}]>
           (MetricRegistry._metric_level_map r)) r).
Proof.
  intros Hf (Hm & Hd & Hs) Hmit Hdit Hsit Hsok Hrep.
  unfold MetricRegistry.register_operator. rewrite Hf.
  unfold kUndefinedMetric, kMetricTypeMax in *. simpl in Hd, Hs.
  rewrite decide_False by lia. rewrite Hmit.
  simpl. rewrite decide_False by lia. rewrite Hdit.
  rewrite decide_False by lia. rewrite Hsit, Hrep.
  rewrite decide_True; [done|].
  unfold sit_ok in Hsok. simpl in Hsok. lia.
Qed.

Lemma DataType_int_inj (a b : DataType) :
  DataType_int a = DataType_int b → a = b.
Proof. by destruct a, b. Qed.

Lemma SimdLevel_int_inj (a b : SimdLevel) :
  SimdLevel_int a = SimdLevel_int b → a = b.
Proof. by destruct a, b. Qed.

(** X18. Registration round trip: on an unfrozen registry with tables of
    the constructed sizes, registering an entity whose three axes are in
    range succeeds when its cell is unpopulated or replace is set, and the
    lookup of that triple then returns exactly the registered entity. *)
Theorem register_then_lookup (op : OperatorEntity) (replace : bool)
    (r : MetricRegistry.t) :
  registry_ok r →
  MetricRegistry._finish_build r = false →
  in_range (metric op) (data_type op) (simd_level op) →
  (∀ e, MetricRegistry.get_metric_operator (metric op) (data_type op)
          (simd_level op) r = Done (Ok e) → replace = true) →
  ∃ r', MetricRegistry.register_operator op replace r = Done (Ok (), r')
    ∧ MetricRegistry.get_metric_operator (metric op) (data_type op)
        (simd_level op) r' = Done (Ok op).
Proof.
  intros Hok Hf Hin Hrep.
  destruct (registry_ok_paths r _ _ _ Hok Hin)
    as (mit & dit & sit & Hmit & Hdit & Hsit & Hmok & Hdok & Hsok).
  pose proof Hin as (Hm & Hd & Hs).
  unfold kUndefinedMetric, kMetricTypeMax in *. simpl in Hd, Hs.
  destruct Hok as [Hlen _]. destruct Hmok as (Hl1 & _ & Hc1).
  destruct Hdok as (Hl2 & _ & Hc2). unfold sit_ok in Hsok.
  unfold kMetricTypeMax in *. simpl in *.
  assert (SimdLevelMap.init sit && negb replace = false) as Hflag.
  { destruct (SimdLevelMap.init sit) eqn:Hsi; [|done].
    destruct replace; [done|]. exfalso.
    pose proof (Forall_lookup_1 _ _ _ _ Hc2 Hsit Hsi) as Hdi.
    pose proof (Forall_lookup_1 _ _ _ _ Hc1 Hdit Hdi) as Hmi.
    destruct (lookup_lt_is_Some_2 (SimdLevelMap.operators sit)
                (Z.to_nat (SimdLevel_int (simd_level op)))) as [e He]; [lia|].
    assert (false = true); [|done]. apply (Hrep e).
    apply get_metric_operator_Ok. split; [done|].
    by exists mit, dit, sit. }
  eexists. split.
  { by apply (register_operator_written op replace r mit dit sit). }
  apply get_metric_operator_Ok. split; [done|]. simpl.
  eexists _, _, _. split; [apply list_lookup_insert_eq; lia|]. simpl.
  split; [done|]. split; [apply list_lookup_insert_eq; lia|]. simpl.
  split; [done|]. split; [apply list_lookup_insert_eq; lia|]. simpl.
  split; [done|]. apply list_lookup_insert_eq. lia.
Qed.

Lemma get_metric_operator_cell (mt : MetricType) (dt : DataType)
    (lv : SimdLevel) (r : MetricRegistry.t) (e : OperatorEntity) :
  MetricRegistry.get_metric_operator mt dt lv r = Done (Ok e) ↔
  in_range mt dt lv
  ∧ ∃ m, MetricRegistry._metric_level_map r !! Z.to_nat mt = Some m
      ∧ mit_cell m dt lv e.
Proof.
  rewrite get_metric_operator_Ok. unfold mit_cell, dit_cell, sit_cell. split.
  - intros [? (m & d & s & ? & ? & ? & ? & ? & ? & ?)]. split; [done|].
    exists m. split; [done|]. split; [done|]. exists d. split; [done|].
    split; [done|]. by exists s.
  - intros [? (m & ? & ? & d & ? & ? & s & ? & ? & ?)]. split; [done|].
    by exists m, d, s.
Qed.

Lemma dit_cell_raise (d : DataTypeMap.t) lv e :
  Forall (λ s, SimdLevelMap.init s = true → DataTypeMap.init d = true)
    (DataTypeMap.operators d) →
  dit_cell {| DataTypeMap.init := true;
              DataTypeMap.operators := DataTypeMap.operators d |} lv e
  ↔ dit_cell d lv e.
Proof.
  intros Hc. unfold dit_cell. simpl. split.
  - intros [_ (s & Hs & Hcell)]. split; [|by exists s].
    by apply (Forall_lookup_1 _ _ _ _ Hc Hs), Hcell.
  - intros [_ ?]. done.
Qed.

Lemma dit_cell_write (d : DataTypeMap.t) (si : nat) s' lv e :
  Forall (λ s, SimdLevelMap.init s = true → DataTypeMap.init d = true)
    (DataTypeMap.operators d) →
  Z.to_nat (SimdLevel_int lv) ≠ si →
  dit_cell {| DataTypeMap.init := true;
              DataTypeMap.operators := <[si := s']> (DataTypeMap.operators d) |}
    lv e
  ↔ dit_cell d lv e.
Proof.
  intros Hc Hne. unfold dit_cell. simpl.
  rewrite list_lookup_insert_ne by done. split.
  - intros [_ (s & Hs & Hcell)]. split; [|by exists s].
    by apply (Forall_lookup_1 _ _ _ _ Hc Hs), Hcell.
  - intros [_ ?]. done.
Qed.

Lemma mit_cell_raise (m : MetricLevelMap.t) dt lv e :
  Forall (λ d, DataTypeMap.init d = true → MetricLevelMap.init m = true)
    (MetricLevelMap.operators m) →
  mit_cell {| MetricLevelMap.init := true;
              MetricLevelMap.operators := MetricLevelMap.operators m |} dt lv e
  ↔ mit_cell m dt lv e.
Proof.
  intros Hc. unfold mit_cell. simpl. split.
  - intros [_ (d & Hd & Hcell)]. split; [|by exists d].
    by apply (Forall_lookup_1 _ _ _ _ Hc Hd), Hcell.
  - intros [_ ?]. done.
Qed.

Lemma mit_cell_write (m : MetricLevelMap.t) (di : nat) d d' dt lv e :
  Forall (λ d, DataTypeMap.init d = true → MetricLevelMap.init m = true)
    (MetricLevelMap.operators m) →
  MetricLevelMap.operators m !! di = Some d →
  (Z.to_nat (DataType_int dt) = di → dit_cell d' lv e ↔ dit_cell d lv e) →
  mit_cell {| MetricLevelMap.init := true;
              MetricLevelMap.operators := <[di := d']> (MetricLevelMap.operators m) |}
    dt lv e
  ↔ mit_cell m dt lv e.
Proof.
  intros Hc Hd Hiff. unfold mit_cell. simpl.
  pose proof (lookup_lt_Some _ _ _ Hd) as Hlt.
  destruct (decide (Z.to_nat (DataType_int dt) = di)) as [Heq|Hne].
  - rewrite Heq, list_lookup_insert_eq by done. rewrite Hd. split.
    + intros [_ (x & [= <-] & Hcell)]. apply (Hiff Heq) in Hcell.
      split; [|by exists d].
      by apply (Forall_lookup_1 _ _ _ _ Hc Hd), Hcell.
    + intros [_ (x & [= <-] & Hcell)]. split; [done|]. exists d'.
      split; [done|]. by apply (Hiff Heq).
  - rewrite list_lookup_insert_ne by done. split.
    + intros [_ (x & Hx & Hcell)]. split; [|by exists x].
      by apply (Forall_lookup_1 _ _ _ _ Hc Hx), Hcell.
    + intros [_ ?]. done.
Qed.

Lemma registry_cell_write (r : MetricRegistry.t) (mi : nat) m m' mt dt lv e :
  MetricRegistry._metric_level_map r !! mi = Some m →
  (in_range mt dt lv → Z.to_nat mt = mi →
   mit_cell m' dt lv e ↔ mit_cell m dt lv e) →
  MetricRegistry.get_metric_operator mt dt lv
    (MetricRegistry.with_map
       (<[mi := m']> (MetricRegistry._metric_level_map r)) r) = Done (Ok e)
  ↔ MetricRegistry.get_metric_operator mt dt lv r = Done (Ok e).
Proof.
  intros Hm Hiff. rewrite !get_metric_operator_cell. simpl.
  pose proof (lookup_lt_Some _ _ _ Hm) as Hlt.
  destruct (decide (Z.to_nat mt = mi)) as [Heq|Hne].
  - rewrite Heq, list_lookup_insert_eq by done. rewrite Hm. split.
    + intros [Hin (x & [= <-] & Hcell)]. split; [done|]. exists m.
      split; [done|]. by apply (Hiff Hin Heq).
    + intros [Hin (x & [= <-] & Hcell)]. split; [done|]. exists m'.
      split; [done|]. by apply (Hiff Hin Heq).
  - by rewrite list_lookup_insert_ne.
Qed.

(** X19. Registration never disturbs another cell, and a rejected
    registration disturbs none: whatever register_operator returns on a
    registry with tables of the constructed sizes, a lookup succeeds with an
    entity afterwards exactly when it did before, for every triple other
    than the registered one, and for that triple too when the registration
    failed. *)
Theorem register_keeps_other_cells (op : OperatorEntity) (replace : bool)
    (r r' : MetricRegistry.t) (res : Result unit)
    (mt : MetricType) (dt : DataType) (lv : SimdLevel) (e : OperatorEntity) :
  registry_ok r →
  MetricRegistry.register_operator op replace r = Done (res, r') →
  (mt, dt, lv) ≠ (metric op, data_type op, simd_level op) ∨ res ≠ Ok () →
  MetricRegistry.get_metric_operator mt dt lv r' = Done (Ok e)
  ↔ MetricRegistry.get_metric_operator mt dt lv r = Done (Ok e).
Proof.
  intros [Hlen Hok] Hreg Hother. revert Hreg.
  unfold MetricRegistry.register_operator.
  destruct (MetricRegistry._finish_build r); [by intros [= <- <-]|].
  case_decide as Hm; [by intros [= <- <-]|].
  destruct (MetricRegistry._metric_level_map r !! _) as [mit|] eqn:Hmit;
    [|done].
  pose proof (Forall_lookup_1 _ _ _ _ Hok Hmit) as (Hl1 & Hdok & Hc1).
  simpl. case_decide as Hd.
  { intros [= <- <-]. apply (registry_cell_write r _ mit); [done|].
    intros _ _. by apply mit_cell_raise. }
  destruct (MetricLevelMap.operators mit !! _) as [dit|] eqn:Hdit; [|done].
  pose proof (Forall_lookup_1 _ _ _ _ Hdok Hdit) as (Hl2 & Hsok & Hc2).
  assert (∀ s', (Z.to_nat (SimdLevel_int lv)
                 = Z.to_nat (SimdLevel_int (simd_level op)) →
                 in_range mt dt lv → Z.to_nat mt = Z.to_nat (metric op) →
                 Z.to_nat (DataType_int dt)
                 = Z.to_nat (DataType_int (data_type op)) → False) →
    MetricRegistry.get_metric_operator mt dt lv
      (MetricRegistry.with_map
         (<[Z.to_nat (metric op) :=
              {| MetricLevelMap.init := true;
                 MetricLevelMap.operators :=
                   <[Z.to_nat (DataType_int (data_type op)) :=
                       {| DataTypeMap.init := true;
                          DataTypeMap.operators :=
                            <[Z.to_nat (SimdLevel_int (simd_level op)) := s']>
                              (DataTypeMap.operators dit) |}]>
                     (MetricLevelMap.operators mit) |}]>
            (MetricRegistry._metric_level_map r)) r) = Done (Ok e)
    ↔ MetricRegistry.get_metric_operator mt dt lv r = Done (Ok e)) as Hwrite.
  { intros s' Hne. apply (registry_cell_write r _ mit); [done|].
    intros Hin Hmi. apply (mit_cell_write mit _ dit); [done|done|].
    intros Hdi. apply dit_cell_write; [done|]. intros Hsi.
    by apply Hne. }
  assert (MetricRegistry.get_metric_operator mt dt lv
      (MetricRegistry.with_map
         (<[Z.to_nat (metric op) :=
              {| MetricLevelMap.init := true;
                 MetricLevelMap.operators :=
                   <[Z.to_nat (DataType_int (data_type op)) :=
                       {| DataTypeMap.init := true;
                          DataTypeMap.operators := DataTypeMap.operators dit |}]>
                     (MetricLevelMap.operators mit) |}]>
            (MetricRegistry._metric_level_map r)) r) = Done (Ok e)
    ↔ MetricRegistry.get_metric_operator mt dt lv r = Done (Ok e)) as Hraise.
  { apply (registry_cell_write r _ mit); [done|].
    intros Hin Hmi. apply (mit_cell_write mit _ dit); [done|done|].
    intros Hdi. by apply dit_cell_raise. }
  case_decide as Hs; [by intros [= <- <-]|].
  destruct (DataTypeMap.operators dit !! _) as [sit|] eqn:Hsit; [|done].
  destruct (SimdLevelMap.init sit && negb replace); [by intros [= <- <-]|].
  case_decide; [|done]. intros [= <- <-].
  apply Hwrite. intros Hsi (Hm' & Hd' & Hs') Hmi Hdi.
  destruct Hother as [Hother|Hother]; [|done]. apply Hother.
  unfold kUndefinedMetric, kMetricTypeMax in *. simpl in *.
  assert (mt = metric op) as -> by lia.
  assert (dt = data_type op) as -> by (apply DataType_int_inj; lia).
  assert (lv = simd_level op) as -> by (apply SimdLevel_int_inj; lia).
  done.
Qed.

Lemma register_operator_paths (op : OperatorEntity) (replace : bool)
    (r r' : MetricRegistry.t) (res : Result unit) mi m' di d' si s' k e :
  MetricRegistry.register_operator op replace r = Done (res, r') →
  MetricRegistry._metric_level_map r' !! mi = Some m' →
  MetricLevelMap.operators m' !! di = Some d' →
  DataTypeMap.operators d' !! si = Some s' →
  SimdLevelMap.operators s' !! k = Some e →
  (∃ m d s, MetricRegistry._metric_level_map r !! mi = Some m
     ∧ MetricLevelMap.operators m !! di = Some d
     ∧ DataTypeMap.operators d !! si = Some s
     ∧ SimdLevelMap.operators s !! k = Some e)
  ∨ (res = Ok () ∧ e = op
     ∧ in_range (metric op) (data_type op) (simd_level op)
     ∧ mi = Z.to_nat (metric op)
     ∧ di = Z.to_nat (DataType_int (data_type op))
     ∧ si = Z.to_nat (SimdLevel_int (simd_level op))
     ∧ k = Z.to_nat (SimdLevel_int (simd_level op))).
Proof.
  unfold MetricRegistry.register_operator.
  destruct (MetricRegistry._finish_build r).
  { intros [= <- <-] ????. left. eauto 10. }
  case_decide as Hm. { intros [= <- <-] ????. left. eauto 10. }
  destruct (MetricRegistry._metric_level_map r !! _) as [mit|] eqn:Hmit;
    [|done].
  simpl. case_decide as Hd.
  { intros [= <- <-]. simpl. intros H1 H2 H3 H4. left.
    apply list_lookup_insert_Some in H1 as [(<- & <- & _)|(_ & H1)];
      simpl in *; eauto 10. }
  destruct (MetricLevelMap.operators mit !! _) as [dit|] eqn:Hdit; [|done].
  case_decide as Hs.
  { intros [= <- <-]. simpl. intros H1 H2 H3 H4. left.
    apply list_lookup_insert_Some in H1 as [(<- & <- & _)|(_ & H1)];
      simpl in *; [|eauto 10].
    apply list_lookup_insert_Some in H2 as [(<- & <- & _)|(_ & H2)];
      simpl in *; eauto 10. }
  destruct (DataTypeMap.operators dit !! _) as [sit|] eqn:Hsit; [|done].
  destruct (SimdLevelMap.init sit && negb replace).
  { intros [= <- <-]. simpl. intros H1 H2 H3 H4. left.
    apply list_lookup_insert_Some in H1 as [(<- & <- & _)|(_ & H1)];
      simpl in *; [|eauto 10].
    apply list_lookup_insert_Some in H2 as [(<- & <- & _)|(_ & H2)];
      simpl in *; eauto 10. }
  case_decide; [|done]. intros [= <- <-]. simpl. intros H1 H2 H3 H4.
  apply list_lookup_insert_Some in H1 as [(<- & <- & _)|(_ & H1)];
    simpl in *; [|left; eauto 10].
  apply list_lookup_insert_Some in H2 as [(<- & <- & _)|(_ & H2)];
    simpl in *; [|left; eauto 10].
  apply list_lookup_insert_Some in H3 as [(<- & <- & _)|(_ & H3)];
    simpl in *; [|left; eauto 10].
  apply list_lookup_insert_Some in H4 as [(<- & <- & _)|(_ & H4)];
    simpl in *; [|left; eauto 10].
  right. unfold in_range, kUndefinedMetric, kMetricTypeMax in *. simpl.
  repeat split; try done; lia.
Qed.

Lemma registry_own_empty : registry_own MetricRegistry.empty.
Proof.
  intros mi m di d si s k e H1 H2 H3 H4 Hsup.
  unfold MetricRegistry.empty, MetricRegistry._metric_level_map in H1.
  apply lookup_replicate_1 in H1 as [-> _].
  unfold MetricLevelMap.default, MetricLevelMap.operators in H2.
  apply lookup_replicate_1 in H2 as [-> _].
  unfold DataTypeMap.default, DataTypeMap.operators in H3.
  apply lookup_replicate_1 in H3 as [-> _].
  unfold SimdLevelMap.default, SimdLevelMap.operators in H4.
  apply lookup_replicate_1 in H4 as [-> _]. done.
Qed.

Lemma registry_step_own (r r' : MetricRegistry.t) :
  registry_own r → registry_step r r' → registry_own r'.
Proof.
  intros Hown [op replace res r'' Hreg|]; [|exact Hown].
  intros mi m di d si s k e H1 H2 H3 H4 Hsup.
  destruct (register_operator_paths _ _ _ _ _ _ _ _ _ _ _ _ _ Hreg H1 H2 H3 H4)
    as [(m0 & d0 & s0 & ? & ? & ? & ?)|(_ & -> & ? & ? & ? & ? & ?)].
  - by apply (Hown mi m0 di d0 si s0 k e).
  - done.
Qed.

Lemma rtc_registry_step_own (r : MetricRegistry.t) :
  rtc registry_step MetricRegistry.empty r → registry_own r.
Proof.
  intros Hrtc. pose proof registry_own_empty as Hown.
  induction Hrtc; eauto using registry_step_own.
Qed.

Lemma all_metric_operators_elem (r : MetricRegistry.t) (e : OperatorEntity) :
  e ∈ MetricRegistry.all_metric_operators r ↔
  supports e = true
  ∧ ∃ m d s, m ∈ MetricRegistry._metric_level_map r
      ∧ MetricLevelMap.init m = true
      ∧ d ∈ MetricLevelMap.operators m ∧ DataTypeMap.init d = true
      ∧ s ∈ DataTypeMap.operators d ∧ SimdLevelMap.init s = true
      ∧ e ∈ SimdLevelMap.operators s.
Proof.
  unfold MetricRegistry.all_metric_operators. split.
  - intros H. apply list_elem_of_bind in H as (m & H & Hm).
    destruct (MetricLevelMap.init m) eqn:Him; simpl in H;
      [|by apply elem_of_nil in H].
    apply list_elem_of_bind in H as (d & H & Hd).
    destruct (DataTypeMap.init d) eqn:Hid; simpl in H;
      [|by apply elem_of_nil in H].
    apply list_elem_of_bind in H as (s & H & Hs).
    destruct (SimdLevelMap.init s) eqn:His; simpl in H;
      [|by apply elem_of_nil in H].
    apply list_elem_of_filter in H as [Hsup He].
    split; [done|]. by exists m, d, s.
  - intros [Hsup (m & d & s & Hm & Him & Hd & Hid & Hs & His & He)].
    apply list_elem_of_bind. exists m. split; [|done]. rewrite Him. simpl.
    apply list_elem_of_bind. exists d. split; [|done]. rewrite Hid. simpl.
    apply list_elem_of_bind. exists s. split; [|done]. rewrite His. simpl.
    by apply list_elem_of_filter.
Qed.

(** X20. all_metric_operators lists exactly what lookups return: in a
    registry built from the empty table by registrations and finish_build,
    an entity is listed if and only if it has supports set and the lookup
    at its own metric, data type and SIMD level returns it. *)
Theorem all_metric_operators_lookup (r : MetricRegistry.t)
    (e : OperatorEntity) :
  rtc registry_step MetricRegistry.empty r →
  e ∈ MetricRegistry.all_metric_operators r ↔
  supports e = true
  ∧ MetricRegistry.get_metric_operator (metric e) (data_type e)
      (simd_level e) r = Done (Ok e).
Proof.
  intros Hrtc. apply rtc_registry_step_own in Hrtc.
  rewrite all_metric_operators_elem, get_metric_operator_Ok. split.
  - intros [Hsup (m & d & s & Hm & Him & Hd & Hid & Hs & His & He)].
    split; [done|].
    apply list_elem_of_lookup in Hm as [mi Hm].
    apply list_elem_of_lookup in Hd as [di Hd].
    apply list_elem_of_lookup in Hs as [si Hs].
    apply list_elem_of_lookup in He as [k He].
    destruct (Hrtc _ _ _ _ _ _ _ _ Hm Hd Hs He Hsup)
      as (Hin & -> & -> & -> & ->).
    split; [done|]. by exists m, d, s.
  - intros [Hsup [_ (m & d & s & Hm & Him & Hd & Hid & Hs & His & He)]].
    split; [done|]. exists m, d, s.
    repeat split; try done; by eapply list_elem_of_lookup_2.
Qed.

Lemma registry_ok_empty : registry_ok MetricRegistry.empty.
Proof.
  split; [done|]. apply Forall_replicate.
  split; [done|]. split; [|by apply Forall_replicate].
  apply Forall_replicate.
  split; [done|]. split; [|by apply Forall_replicate].
  by apply Forall_replicate.
Qed.

Lemma register_operator_registry_ok (op : OperatorEntity) (replace : bool)
    (r : MetricRegistry.t) :
  registry_ok r →
  ∃ res r', MetricRegistry.register_operator op replace r = Done (res, r')
    ∧ registry_ok r'.
Proof.
  intros Hok. pose proof Hok as [Hlen Hall].
  unfold MetricRegistry.register_operator.
  destruct (MetricRegistry._finish_build r); [by eauto|].
  case_decide as Hm; [by eauto|].
  destruct (MetricRegistry._metric_level_map r !! _) as [mit|] eqn:Hmit.
  2:{ apply lookup_ge_None_1 in Hmit.
      unfold kUndefinedMetric, kMetricTypeMax in *. lia. }
  pose proof (Forall_lookup_1 _ _ _ _ Hall Hmit) as (Hl1 & Hdok & Hc1).
  assert (∀ ds, length ds = Z.to_nat kMetricTypeMax → Forall dit_ok ds →
    registry_ok (MetricRegistry.with_map
      (<[Z.to_nat (metric op) :=
           {| MetricLevelMap.init := true; MetricLevelMap.operators := ds |}]>
         (MetricRegistry._metric_level_map r)) r)) as Hset_mit.
  { intros ds Hl Hds. split; simpl; [by rewrite length_insert|].
    apply Forall_insert; [done|].
    split; [done|]. split; [done|]. by apply Forall_true. }
  simpl. case_decide as Hd; [by eauto 10|].
  destruct (MetricLevelMap.operators mit !! _) as [dit|] eqn:Hdit.
  2:{ apply lookup_ge_None_1 in Hdit. unfold kMetricTypeMax in *.
      simpl in Hd. lia. }
  pose proof (Forall_lookup_1 _ _ _ _ Hdok Hdit) as (Hl2 & Hsok & Hc2).
  assert (∀ ss, length ss = Z.to_nat (DataType_int DT_MAX) →
    Forall sit_ok ss →
    registry_ok (MetricRegistry.with_map
      (<[Z.to_nat (metric op) :=
           {| MetricLevelMap.init := true;
              MetricLevelMap.operators :=
                <[Z.to_nat (DataType_int (data_type op)) :=
                    {| DataTypeMap.init := true;
                       DataTypeMap.operators := ss |}]>
                  (MetricLevelMap.operators mit) |}]>
         (MetricRegistry._metric_level_map r)) r)) as Hset_dit.
  { intros ss Hl Hss. apply Hset_mit; [by rewrite length_insert|].
    apply Forall_insert; [done|].
    split; [done|]. split; [done|]. by apply Forall_true. }
  case_decide as Hs; [by eauto 10|].
  destruct (DataTypeMap.operators dit !! _) as [sit|] eqn:Hsit.
  2:{ apply lookup_ge_None_1 in Hsit. simpl in Hs, Hl2. lia. }
  pose proof (Forall_lookup_1 _ _ _ _ Hsok Hsit) as Hl3.
  unfold sit_ok in Hl3.
  destruct (SimdLevelMap.init sit && negb replace); [by eauto 10|].
  case_decide as Hlt. 2:{ simpl in Hs, Hl3. lia. }
  eexists _, _. split; [done|]. apply Hset_dit; [by rewrite length_insert|].
  apply Forall_insert; [done|]. unfold sit_ok. simpl.
  by rewrite length_insert.
Qed.

Lemma registry_step_ok (r r' : MetricRegistry.t) :
  registry_ok r → registry_step r r' → registry_ok r'.
Proof.
  intros Hok [op replace res r'' Hreg|]; [|exact Hok].
  destruct (register_operator_registry_ok op replace r Hok)
    as (res' & r2 & Hreg' & Hok').
  rewrite Hreg in Hreg'. by injection Hreg' as -> ->.
Qed.

Lemma rtc_registry_step_ok (r : MetricRegistry.t) :
  rtc registry_step MetricRegistry.empty r → registry_ok r.
Proof.
  intros Hrtc. pose proof registry_ok_empty as Hok.
  induction Hrtc; eauto using registry_step_ok.
Qed.

(** X21. In a registry built from the empty table by registrations and
    finish_build no subscript of register_operator or get_metric_operator
    leaves its vector: for every argument both return a status or a
    result. *)
Theorem registry_subscripts_in_bounds (r : MetricRegistry.t) :
  rtc registry_step MetricRegistry.empty r →
  (∀ op replace, ∃ res r',
      MetricRegistry.register_operator op replace r = Done (res, r'))
  ∧ (∀ mt dt lv, ∃ res,
      MetricRegistry.get_metric_operator mt dt lv r = Done res).
Proof.
  intros Hrtc. apply rtc_registry_step_ok in Hrtc. split.
  - intros op replace.
    destruct (register_operator_registry_ok op replace r Hrtc)
      as (res & r' & Hreg & _). eauto.
  - intros mt dt lv. destruct Hrtc as [Hlen Hall].
    unfold MetricRegistry.get_metric_operator.
    case_decide as Hm; [by eauto|].
    destruct (MetricRegistry._metric_level_map r !! _) as [mit|] eqn:Hmit.
    2:{ apply lookup_ge_None_1 in Hmit.
        unfold kUndefinedMetric, kMetricTypeMax in *. lia. }
    pose proof (Forall_lookup_1 _ _ _ _ Hall Hmit) as (Hl1 & Hdok & _).
    destruct (negb (MetricLevelMap.init mit)); [by eauto|].
    case_decide as Hd; [by eauto|].
    destruct (MetricLevelMap.operators mit !! _) as [dit|] eqn:Hdit.
    2:{ apply lookup_ge_None_1 in Hdit. unfold kMetricTypeMax in *.
        simpl in Hd. lia. }
    pose proof (Forall_lookup_1 _ _ _ _ Hdok Hdit) as (Hl2 & Hsok & _).
    destruct (negb (DataTypeMap.init dit)); [by eauto|].
    case_decide as Hs; [by eauto|].
    destruct (DataTypeMap.operators dit !! _) as [sit|] eqn:Hsit.
    2:{ apply lookup_ge_None_1 in Hsit. simpl in Hs, Hl2. lia. }
    pose proof (Forall_lookup_1 _ _ _ _ Hsok Hsit) as Hl3.
    unfold sit_ok in Hl3.
    destruct (negb (SimdLevelMap.init sit)); [by eauto|].
    destruct (SimdLevelMap.operators sit !! _) as [e|] eqn:He; [by eauto|].
    apply lookup_ge_None_1 in He. simpl in Hs, Hl3. lia.
Qed.

Lemma register_then_lookup_witness :
  ∃ r', MetricRegistry.register_operator MetricRegistry.jaccard_u8 false
          MetricRegistry.empty = Done (Ok (), r')
    ∧ MetricRegistry.get_metric_operator kJaccard DT_UINT8 SIMD_NONE r'
      = Done (Ok MetricRegistry.jaccard_u8).
Proof.
  apply (register_then_lookup MetricRegistry.jaccard_u8 false
           MetricRegistry.empty).
  - exact registry_ok_empty.
  - reflexivity.
  - unfold in_range, MetricRegistry.jaccard_u8, kUndefinedMetric,
      kMetricTypeMax, kJaccard. simpl. lia.
  - intros e He. vm_compute in He. discriminate He.
Defined.

Lemma register_keeps_other_cells_witness :
  MetricRegistry.get_metric_operator kJaccard DT_UINT8 SIMD_NONE
    registry_jaccard_sse2 = Done (Ok MetricRegistry.jaccard_u8)
  ↔ MetricRegistry.get_metric_operator kJaccard DT_UINT8 SIMD_NONE
      registry_jaccard = Done (Ok MetricRegistry.jaccard_u8).
Proof.
  apply (register_keeps_other_cells jaccard_f32_sse2 false registry_jaccard
           registry_jaccard_sse2 (Ok ())).
  - apply rtc_registry_step_ok. apply rtc_once.
    apply (rstep_register _ MetricRegistry.jaccard_u8 false (Ok ())).
    vm_compute. reflexivity.
  - vm_compute. reflexivity.
  - left. intros [= ?].
Defined.

Lemma registry_subscripts_in_bounds_witness :
  (∀ op replace, ∃ res r',
      MetricRegistry.register_operator op replace registry_jaccard
      = Done (res, r'))
  ∧ (∀ mt dt lv, ∃ res,
      MetricRegistry.get_metric_operator mt dt lv registry_jaccard
      = Done res).
Proof.
  apply (registry_subscripts_in_bounds registry_jaccard). apply rtc_once.
  apply (rstep_register _ MetricRegistry.jaccard_u8 false (Ok ())).
  vm_compute. reflexivity.
Defined.

Lemma all_metric_operators_lookup_witness :
  MetricRegistry.jaccard_u8 ∈ MetricRegistry.all_metric_operators
                                registry_jaccard
  ↔ supports MetricRegistry.jaccard_u8 = true
    ∧ MetricRegistry.get_metric_operator kJaccard DT_UINT8 SIMD_NONE
        registry_jaccard = Done (Ok MetricRegistry.jaccard_u8).
Proof.
  apply (all_metric_operators_lookup registry_jaccard
           MetricRegistry.jaccard_u8). apply rtc_once.
  apply (rstep_register _ MetricRegistry.jaccard_u8 false (Ok ())).
  vm_compute. reflexivity.
Defined.

(** * Further properties of the store: labels and vectors *)


Section StoreLabels.
Variable allocate : N → option (list Byte.byte).



End StoreLabels.

(** X24. remove_vector_by_label unmaps the label and nothing else:
    afterwards get_id fails with NotFound for it and answers as before for
    every other label, the batches are untouched, the snapshot id is the
    caller's, and size() drops by one exactly when the label was mapped. *)
Theorem remove_vector_by_label_unmaps (snapshot_id lbl : N)
    (s s' : MemStore.t) :
  MemStore.remove_vector_by_label snapshot_id lbl s = Done s' →
  MemStore._snapshot_id s' = snapshot_id
  ∧ MemStore._vector_batches s' = MemStore._vector_batches s
  ∧ MemStore.get_id lbl s' = Done (Err kNotFound)
  ∧ (∀ l, l ≠ lbl → MemStore.get_id l s' = MemStore.get_id l s)
  ∧ ∃ n n', MemStore.size s = Done n ∧ MemStore.size s' = Done n'
      ∧ (MemStore.get_id lbl s = Done (Err kNotFound) → n' = n)
      ∧ (∀ lid, MemStore.get_id lbl s = Done (Ok lid) → n = n' + 1).
Proof.
  unfold MemStore.remove_vector_by_label.
  destruct (MemStore._id_manager s) as [m|] eqn:Hm; [|done].
  destruct (free_id lbl m) as [m'| |] eqn:Hf; [|done..]. simpl.
  intros [= <-]. simpl.
  assert (_id_map m' = delete lbl (_id_map m)) as Hmap.
  { apply free_id_cases in Hf as [_ [[Hn ->]|[(lid & _ & _ & ->)|(lid & _ & Hlt & ->)]]].
    - by rewrite delete_id.
    - done.
    - match goal with |- context [release ?l ?x] =>
        destruct (release_spec l x) as (H1 & _) end; [done|]. by rewrite H1. }
  unfold MemStore.get_id, MemStore.size, local_id. simpl. rewrite Hm, Hmap.
  rewrite lookup_delete_eq.
  split; [done|]. split; [done|]. split; [done|]. split.
  - intros l Hl. by rewrite lookup_delete_ne.
  - eexists _, _. split; [done|]. split; [done|].
    rewrite map_size_delete. split.
    + destruct (_id_map m !! lbl); [done|]. done.
    + intros lid. destruct (_id_map m !! lbl) as [x|] eqn:Hx; [|done].
      intros _. simpl.
      assert (base.size (_id_map m) ≠ 0%nat)
        by (intros H0; apply map_size_empty_inv in H0; by rewrite H0 in Hx).
      lia.
Qed.



Lemma remove_vector_by_label_unmaps_witness :
  ∃ s', MemStore.remove_vector_by_label 300 100 store_two = Done s'
    ∧ MemStore._snapshot_id s' = 300
    ∧ MemStore.get_id 100 s' = Done (Err kNotFound).
Proof.
  assert (∃ s', MemStore.remove_vector_by_label 300 100 store_two = Done s')
    as [s' H] by (eexists; vm_compute; reflexivity).
  destruct (remove_vector_by_label_unmaps 300 100 store_two s' H)
    as (H1 & _ & H2 & _).
  by exists s'.
Defined.

(** * Further properties of the batch and of the vector space *)

(** X25. A batch initialised from a default-constructed one stores nothing:
    for every index and value, set and clear return and leave the batch,
    buffer included, exactly as init made it. *)
Theorem set_clear_after_init (allocate : N → option (list Byte.byte))
    (vbs n i : N) (v : list Byte.byte) (b : VectorBatch.t) :
  VectorBatch.init allocate vbs n VectorBatch.default = (Ok (), b) →
  VectorBatch.set i v b = Done b ∧ VectorBatch.clear i b = Done b.
Proof.
  unfold VectorBatch.init. destruct (allocate _) as [buf|]; [|done].
  intros [= <-]. unfold VectorBatch.set, VectorBatch.clear. simpl.
  case_decide; [done|].
  rewrite decide_False by lia. rewrite N.mul_0_r.
  unfold memcpy, wrap64. simpl. by rewrite drop_0.
Qed.

Lemma set_clear_after_init_witness :
  ∃ b, VectorBatch.init zero_allocate 64 4 VectorBatch.default = (Ok (), b)
    ∧ VectorBatch.set 0 vec64 b = Done b
    ∧ VectorBatch.clear 0 b = Done b.
Proof.
  eexists. split; [vm_compute; reflexivity|].
  apply (set_clear_after_init zero_allocate 64 4 0 vec64). vm_compute.
  reflexivity.
Defined.

(** X26. VectorSpace::create for a dimension that is not negative, a data
    type of element size e, and a registry that holds an entity for the
    metric and data type at SIMD_NONE and one with supports set at the
    requested level.  When e * dim + 64 < 2^31 it succeeds: the vector byte
    size is the least multiple of 64 that holds dim elements, the aligned
    dimension is that size counted in elements, and the two operations are
    the two entities.  When e * dim + 64 >= 2^31 the int32_t computation of
    the vector byte size overflows: undefined behaviour. *)
Theorem create_alignment (registry : MetricRegistry.t) (arch : string)
    (dim : Z) (mt : MetricType) (dt : DataType) (level : SimdLevel)
    (e : Z) (std ms : OperatorEntity) :
  (0 ≤ dim)%Z →
  data_type_size dt = Ok e →
  MetricRegistry.get_metric_operator mt dt SIMD_NONE registry
  = Done (Ok std) →
  MetricRegistry.get_metric_operator mt dt level registry = Done (Ok ms) →
  supports ms = true →
  ((e * dim + 64 < 2 ^ 31)%Z →
   ∃ vs, VectorSpaceImpl.create registry arch dim mt dt level = Done (Ok vs)
     ∧ VectorSpaceImpl.dim vs = dim
     ∧ VectorSpaceImpl.element_size vs = e
     ∧ (VectorSpaceImpl.vector_byte_size vs mod 64 = 0)%Z
     ∧ (e * dim ≤ VectorSpaceImpl.vector_byte_size vs < e * dim + 64)%Z
     ∧ (VectorSpaceImpl.alignment_dim vs * e
        = VectorSpaceImpl.vector_byte_size vs)%Z
     ∧ (dim ≤ VectorSpaceImpl.alignment_dim vs)%Z
     ∧ VectorSpaceImpl.standard_operation vs = std
     ∧ VectorSpaceImpl.operation vs = ms
     ∧ VectorSpaceImpl.need_normalize_vector vs = need_normalize_vector ms)
  ∧ ((2 ^ 31 ≤ e * dim + 64)%Z →
     VectorSpaceImpl.create registry arch dim mt dt level = Undef).
Proof.
  intros Hdim He Hstd Hms Hsup.
  assert (e = 1 ∨ e = 2 ∨ e = 4)%Z as Hcases
    by (destruct dt; simpl in He; try done; inversion He; lia).
  unfold VectorSpaceImpl.create, VectorSpaceImpl.kAlignmentBytes, int32.
  rewrite He. split.
  - intros Hfit.
    rewrite decide_True by lia. simpl.
    rewrite decide_True by lia. simpl.
    rewrite decide_True by lia. simpl.
    rewrite decide_True
      by (destruct Hcases as [-> | [-> | ->]];
          Z.to_euclidean_division_equations; lia).
    simpl. rewrite Hstd. simpl. rewrite Hms. simpl. rewrite Hsup. simpl.
    destruct ms as [sup nn lv m d f1 f2 f3]. eexists. split; [done|]. simpl.
    repeat split; try done;
      destruct Hcases as [-> | [-> | ->]];
      Z.to_euclidean_division_equations; lia.
  - intros Hover. case_decide as H1; [|done]. simpl.
    rewrite decide_False by lia. done.
Qed.

Lemma create_alignment_witness :
  (∃ vs, VectorSpaceImpl.create registry_jaccard "generic" 100 kJaccard
           DT_UINT8 SIMD_NONE = Done (Ok vs)
     ∧ VectorSpaceImpl.vector_byte_size vs = 128%Z
     ∧ VectorSpaceImpl.alignment_dim vs = 128%Z)
  ∧ VectorSpaceImpl.create registry_jaccard "generic" 2147483647 kJaccard
      DT_UINT8 SIMD_NONE = Undef.
Proof.
  split.
  - destruct (create_alignment registry_jaccard "generic" 100 kJaccard
                DT_UINT8 SIMD_NONE 1 MetricRegistry.jaccard_u8
                MetricRegistry.jaccard_u8) as [H _];
      [lia|reflexivity|vm_compute; reflexivity|vm_compute; reflexivity
      |reflexivity|].
    destruct H as (vs & H1 & _ & _ & H2 & H3 & H4 & _); [lia|].
    exists vs. split; [done|].
    assert (VectorSpaceImpl.vector_byte_size vs = 128%Z) as Hv
      by (apply Z.mod_divide in H2; [destruct H2 as [q Hq]; lia|lia]).
    split; [done|]. lia.
  - destruct (create_alignment registry_jaccard "generic" 2147483647 kJaccard
                DT_UINT8 SIMD_NONE 1 MetricRegistry.jaccard_u8
                MetricRegistry.jaccard_u8) as [_ H];
      [lia|reflexivity|vm_compute; reflexivity|vm_compute; reflexivity
      |reflexivity|].
    apply H. lia.
Defined.
